(** * method2comment: the data pipeline of [language_model/dataset.py]

    A shallow embedding of the token-chain extractor ([load_data_file]),
    the vocabulary builder ([build_vocab_from_data_dir]), the tensoriser
    ([tensorise_token_sequence]) and the minibatch iterator
    ([get_minibatch_iterator]), with the properties of each.

    Python integers are [Z], dictionaries are [gmap]s, lists are lists,
    exceptions are values of [exception], [str.lower] is a parameter
    ([StrLower]); a [while] loop takes a bound on
    the number of its iterations and reports the state it was left in when
    the bound is reached. *)

From stdpp Require Import gmap strings list fin_maps sorting.
From Stdlib Require Import ZArith Ascii Permutation.
From Equations Require Import Equations.

Local Open Scope Z_scope.

(** ** Python values and exceptions *)

Module Py.

(** The argument an exception carries: the missing key of a [KeyError] is an
    integer (a position or a node id) or a string (a token). *)
Inductive pyval :=
| PyInt (z : Z)
| PyStr (s : string).

(** The exceptions of the builtin operations the module uses: [d[k]] on a
    dictionary without [k], and [itertools.islice] with a negative stop. *)
Inductive exception :=
| KeyError (key : pyval)
| IndexError
| ValueError.

(** [type(e).__name__] *)
Definition exc_class (e : exception) : string :=
  match e with
  | KeyError _ => "KeyError"
  | IndexError => "IndexError"
  | ValueError => "ValueError"
  end.

(** A computation that returns or raises. *)
Inductive result (A : Type) :=
| Ok (a : A)
| Err (e : exception).
Arguments Ok {A} a.
Arguments Err {A} e.

Definition bind {A B} (r : result A) (k : A -> result B) : result B :=
  match r with
  | Ok a => k a
  | Err e => Err e
  end.

(** [for x in l: acc.append(f x)], stopping at the first exception. *)
Fixpoint mapM {A B} (f : A -> result B) (l : list A) : result (list B) :=
  match l with
  | [] => Ok []
  | x :: l' => bind (f x) (fun y => bind (mapM f l') (fun ys => Ok (y :: ys)))
  end.

(** [len(l)] *)
Definition len {A} (l : list A) : Z := Z.of_nat (List.length l).

(** [l[i]], with Python's negative indices. *)
Definition getitem {A} (l : list A) (i : Z) : result A :=
  let j := if i <? 0 then len l + i else i in
  if j <? 0 then Err IndexError
  else match l !! Z.to_nat j with
       | Some x => Ok x
       | None => Err IndexError
       end.

(** [range(n)] *)
Definition range (n : Z) : list Z := seqZ 0 n.

(** [str.lower]. Python lowercases by the tables of Unicode, which are not
    written out here: the development is parametric in the function, and
    what a property needs of it is a hypothesis of that property. *)
Class StrLower := lower : string -> string.

(** The lowercasing of the letters [A-Z], which is [str.lower] on ASCII
    text; the examples are run with it. *)
Definition lower_ascii (c : ascii) : ascii :=
  let n := nat_of_ascii c in
  if ((65 <=? n)%nat && (n <=? 90)%nat)%bool then ascii_of_nat (n + 32) else c.

Fixpoint ascii_lower (s : string) : string :=
  match s with
  | EmptyString => EmptyString
  | String c s' => String (lower_ascii c) (ascii_lower s')
  end.

Definition ascii_str : StrLower := ascii_lower.

End Py.
Import Py.

Notation "x <- r ;; k" := (Py.bind r (fun x => k))
  (at level 100, r at next level, right associativity).

(** ** The graph records ([graph_pb2]) *)

Module Proto.

(** Modelled from the spec: the generated module [graph_pb2] is not part of
    the sources. A node type is "at minimum: plain token, identifier token,
    other syntax-node kinds"; the other kinds are kept by their number. *)
Inductive NodeType :=
| TOKEN
| IDENTIFIER_TOKEN
| OTHER_NODE (kind : Z).

(** Modelled from the spec: an edge type is "at minimum: next token in the
    linear token stream; other kinds exist". *)
Inductive EdgeType :=
| NEXT_TOKEN
| OTHER_EDGE (kind : Z).

(** Modelled from the spec: the fields of a node that the module reads. *)
Record FeatureNode := mkNode {
  id : Z;
  type : NodeType;
  contents : string;
  startPosition : Z;
  endPosition : Z
}.

(** Modelled from the spec: the fields of an edge. *)
Record FeatureEdge := mkEdge {
  sourceId : Z;
  destinationId : Z;
  etype : EdgeType
}.

(** Modelled from the spec: a record is the nodes and the edges, each in the
    order in which the record enumerates them. *)
Record Graph := mkGraph {
  node : list FeatureNode;
  edge : list FeatureEdge
}.

#[global] Instance NodeType_eq_dec : EqDecision NodeType.
Proof. solve_decision. Defined.

#[global] Instance EdgeType_eq_dec : EqDecision EdgeType.
Proof. solve_decision. Defined.

End Proto.
Import Proto.

(** ** [load_data_file] *)

(** The dictionaries and the list that the first loop of [load_data_file]
    fills. *)
Record node_index := mkIndex {
  nodes_dict : gmap Z FeatureNode;
  tokens_by_start_pos : gmap Z FeatureNode;
  tokens_by_end_pos : gmap Z FeatureNode;
  methods : list FeatureNode
}.

Definition empty_index : node_index :=
  {| nodes_dict := ∅; tokens_by_start_pos := ∅; tokens_by_end_pos := ∅;
     methods := [] |}.

(** [n.type in (FeatureNode.TOKEN, FeatureNode.IDENTIFIER_TOKEN)] *)
Definition is_token_type (t : NodeType) : bool :=
  bool_decide (t = TOKEN) || bool_decide (t = IDENTIFIER_TOKEN).

(** [n.contents == 'METHOD'] *)
Definition is_method_root (n : FeatureNode) : bool :=
  bool_decide (contents n = "METHOD"%string).

(** The body of [for n in g.node]. *)
Definition index_node (ix : node_index) (n : FeatureNode) : node_index :=
  {| nodes_dict := <[id n := n]> (nodes_dict ix);
     methods := if is_method_root n then methods ix ++ [n] else methods ix;
     tokens_by_start_pos :=
       if is_token_type (type n)
       then <[startPosition n := n]> (tokens_by_start_pos ix)
       else tokens_by_start_pos ix;
     tokens_by_end_pos :=
       if is_token_type (type n)
       then <[endPosition n := n]> (tokens_by_end_pos ix)
       else tokens_by_end_pos ix |}.

Definition build_index (g : Graph) : node_index :=
  fold_left index_node (node g) empty_index.

(** The body of [for e in g.edge]. *)
Definition index_edge (d : gmap Z (list FeatureEdge)) (e : FeatureEdge)
  : gmap Z (list FeatureEdge) :=
  match d !! sourceId e with
  | Some es => <[sourceId e := es ++ [e]]> d
  | None => <[sourceId e := [e]]> d
  end.

Definition build_edges (g : Graph) : gmap Z (list FeatureEdge) :=
  fold_left index_edge (edge g) ∅.

(** [e.type == FeatureEdge.NEXT_TOKEN] *)
Definition is_next_token (e : FeatureEdge) : bool :=
  bool_decide (etype e = NEXT_TOKEN).

(** [for e in edges_dict[nid]: if e.type == NEXT_TOKEN: nid = e.destinationId]:
    the list is the one of the node the loop was entered with, and every
    next-token edge of it assigns [nid]. *)
Definition follow_edges (es : list FeatureEdge) (nid : Z) : Z :=
  fold_left (fun cur e => if is_next_token e then destinationId e else cur)
            es nid.

(** [if nid in edges_dict: for e in edges_dict[nid]: ...] *)
Definition advance (edges_dict : gmap Z (list FeatureEdge)) (nid : Z) : Z :=
  match edges_dict !! nid with
  | Some es => follow_edges es nid
  | None => nid
  end.

(** How a traversal stands after a number of iterations of its loop. *)
Inductive loop_result :=
| Done (tokens : list string)
| Fail (e : exception)
| Running (nid : Z) (tokens : list string).

(** [while nid != tokens_by_end_pos[m.endPosition].id: ...], for at most
    [fuel] evaluations of its condition. *)
Fixpoint while_loop {str : StrLower} (fuel : nat) (ix : node_index)
    (edges_dict : gmap Z (list FeatureEdge)) (m : FeatureNode)
    (nid : Z) (tokens : list string) : loop_result :=
  match fuel with
  | O => Running nid tokens
  | S fuel' =>
    match tokens_by_end_pos ix !! endPosition m with
    | None => Fail (KeyError (PyInt (endPosition m)))
    | Some en =>
      if bool_decide (nid = id en) then Done tokens
      else match nodes_dict ix !! nid with
           | None => Fail (KeyError (PyInt nid))
           | Some n =>
             while_loop fuel' ix edges_dict m (advance edges_dict nid)
                        (tokens ++ [lower (contents n)])
           end
    end
  end.

(** The body of [for m in methods], up to the [yield]. *)
Definition extract_method {str : StrLower} (fuel : nat) (ix : node_index)
    (edges_dict : gmap Z (list FeatureEdge)) (m : FeatureNode) : loop_result :=
  match tokens_by_start_pos ix !! startPosition m with
  | None => Fail (KeyError (PyInt (startPosition m)))
  | Some sn => while_loop fuel ix edges_dict m (id sn) []
  end.

(** How the consumer of a generator sees it end. *)
Inductive status :=
| Finished
| Raised (e : exception)
| OutOfFuel.

(** [len(tokens) > 0] *)
Definition nonempty (tokens : list string) : bool :=
  match tokens with
  | [] => false
  | _ :: _ => true
  end.

(** [for m in methods: ...; if len(tokens) > 0: yield tokens]: the lists
    yielded, in the order of the yields, and how the generator ends. *)
Fixpoint run_methods {str : StrLower} (fuel : nat) (ix : node_index)
    (edges_dict : gmap Z (list FeatureEdge)) (ms : list FeatureNode)
  : list (list string) * status :=
  match ms with
  | [] => ([], Finished)
  | m :: ms' =>
    match extract_method fuel ix edges_dict m with
    | Done tokens =>
      let '(ys, st) := run_methods fuel ix edges_dict ms' in
      (if nonempty tokens then tokens :: ys else ys, st)
    | Fail e => ([], Raised e)
    | Running _ _ => ([], OutOfFuel)
    end
  end.

(** [load_data_file], on the graph decoded from the file. *)
Definition load_data_file {str : StrLower} (fuel : nat) (g : Graph)
  : list (list string) * status :=
  run_methods fuel (build_index g) (build_edges g) (methods (build_index g)).


(** ** Notions used to state the properties of the traversal *)

(** The edges that leave [src], in the order of the record. *)
Definition out_edges (g : Graph) (src : Z) : list FeatureEdge :=
  filter (λ e, sourceId e = src) (edge g).

(** The next-token edges among [es], in their order. *)
Definition next_token_edges (es : list FeatureEdge) : list FeatureEdge :=
  filter (λ e, etype e = NEXT_TOKEN) es.

(** The nodes a traversal visits: [chain ed s k] is the value of [nid] after
    [k] iterations of the loop entered with [nid = s]. *)
Fixpoint chain (edges_dict : gmap Z (list FeatureEdge)) (s : Z) (k : nat) : Z :=
  match k with
  | O => s
  | S k' => chain edges_dict (advance edges_dict s) k'
  end.

(** The tokens appended by [k] iterations that find their nodes, from
    [nid = s]. *)
Fixpoint chain_tokens {str : StrLower} (ix : node_index)
    (edges_dict : gmap Z (list FeatureEdge))
    (s : Z) (k : nat) : list string :=
  match k with
  | O => []
  | S k' =>
    match nodes_dict ix !! s with
    | Some n => lower (contents n)
                  :: chain_tokens ix edges_dict (advance edges_dict s) k'
    | None => []
    end
  end.

(** The first [k] nodes of the chain from [s] are nodes of the record and
    differ from [e]. *)
Definition chain_open (ix : node_index) (edges_dict : gmap Z (list FeatureEdge))
    (s e : Z) (k : nat) : Prop :=
  ∀ j, (j < k)%nat ->
    chain edges_dict s j ≠ e ∧ is_Some (nodes_dict ix !! chain edges_dict s j).

(** [nid] is no key of the edge index, or all its edges have other types. *)
Definition no_next_token_edge (edges_dict : gmap Z (list FeatureEdge))
    (nid : Z) : Prop :=
  match edges_dict !! nid with
  | None => True
  | Some es => Forall (λ e, etype e ≠ NEXT_TOKEN) es
  end.

(** The token lists of the traversals that completed, up to the first one
    that did not. *)
Fixpoint completed (rs : list loop_result) : list (list string) :=
  match rs with
  | Done tokens :: rs' => tokens :: completed rs'
  | _ => []
  end.

(** ** The vocabulary ([dpu_utils.mlutils.vocabulary]) *)

Module Vocab.

(** Modelled from the spec: the class [Vocabulary] belongs to the library
    dpu_utils and is not part of the sources: "an ordered bidirectional
    mapping between token strings and small non-negative integer ids". *)
Record Vocabulary := mkVocab {
  token_to_id : gmap string nat;
  id_to_token : list string
}.

Definition get_unk : string := "%UNK%".
Definition get_pad : string := "%PAD%".

(** Modelled from the spec: a token already present keeps its id, a new one
    gets the next free id. *)
Definition add_or_get_id (v : Vocabulary) (token : string) : Vocabulary * nat :=
  match token_to_id v !! token with
  | Some i => (v, i)
  | None =>
    let i := length (id_to_token v) in
    ({| token_to_id := <[token := i]> (token_to_id v);
        id_to_token := id_to_token v ++ [token] |}, i)
  end.

(** Modelled from the spec: [Vocabulary(add_unk, add_pad)]: "insert the
    reserved symbols first, in fixed order (unknown, pad, ...)". *)
Definition new_vocabulary (add_unk add_pad : bool) : Vocabulary :=
  let v := {| token_to_id := ∅; id_to_token := [] |} in
  let v := if add_unk then (add_or_get_id v get_unk).1 else v in
  if add_pad then (add_or_get_id v get_pad).1 else v.

(** Modelled from the spec: "querying an unseen token returns the unknown
    id"; the unknown id is itself looked up, which fails in a vocabulary
    made without it. *)
Definition get_id_or_unk (v : Vocabulary) (token : string) : result nat :=
  match token_to_id v !! token with
  | Some i => Ok i
  | None =>
    match token_to_id v !! get_unk with
    | Some u => Ok u
    | None => Err (KeyError (PyStr get_unk))
    end
  end.

(** [len(vocab)] *)
Definition vocab_len (v : Vocabulary) : Z := len (id_to_token v).

(** The two directions of a vocabulary agree; every vocabulary made with
    [new_vocabulary] and [add_or_get_id] is of this kind. *)
Definition vocab_wf (v : Vocabulary) : Prop :=
  ∀ (t : string) (i : nat),
    token_to_id v !! t = Some i ↔ id_to_token v !! i = Some t.

End Vocab.
Import Vocab.

Definition START_SYMBOL : string := "%START%".
Definition END_SYMBOL : string := "%END%".

(** A vocabulary that contains the four reserved symbols, with their ids. *)
Record has_reserved (v : Vocabulary) (unk_id pad_id start_id end_id : nat)
  : Prop := {
  has_unk : token_to_id v !! get_unk = Some unk_id;
  has_pad : token_to_id v !! get_pad = Some pad_id;
  has_start : token_to_id v !! START_SYMBOL = Some start_id;
  has_end : token_to_id v !! END_SYMBOL = Some end_id
}.

(** ** [collections.Counter] *)

(** A counter is a dictionary, which keeps its keys in the order of their
    first insertion: [most_common] depends on that order. *)
Definition Counter : Type := list (string * Z).

(** [cnt[token] += 1]; a missing key counts as 0. *)
Fixpoint counter_incr (cnt : Counter) (token : string) : Counter :=
  match cnt with
  | [] => [(token, 1)]
  | (t, c) :: cnt' =>
    if decide (t = token) then (t, c + 1) :: cnt'
    else (t, c) :: counter_incr cnt' token
  end.

(** Insertion before the first item that does not count more. *)
Fixpoint insert_by_count (x : string * Z) (l : list (string * Z))
  : list (string * Z) :=
  match l with
  | [] => [x]
  | y :: l' =>
    if y.2 <=? x.2 then x :: y :: l' else y :: insert_by_count x l'
  end.

(** [sorted(cnt.items(), key=itemgetter(1), reverse=True)]: by decreasing
    count, items of equal count in the order of the counter. *)
Definition sorted_by_count (cnt : Counter) : list (string * Z) :=
  foldr insert_by_count [] cnt.

(** [cnt.most_common(n)] for an integer [n]: [heapq.nlargest] returns the
    [n] first items of the sorted list, and none when [n] is not positive. *)
Definition most_common (n : Z) (cnt : Counter) : list (string * Z) :=
  take (Z.to_nat n) (sorted_by_count cnt).

(** ** [build_vocab_from_data_dir] *)

(** What a function that consumes generators does. *)
Inductive outcome (A : Type) :=
| Return (a : A)
| Raise (e : exception)
| Unfinished.
Arguments Return {A} a.
Arguments Raise {A} e.
Arguments Unfinished {A}.

(** [for token_seq in ...: for token in token_seq: cnt[token] += 1] *)
Definition count_tokens (cnt : Counter) (token_seqs : list (list string))
  : Counter :=
  fold_left (λ cnt token_seq, fold_left counter_incr token_seq cnt)
            token_seqs cnt.

(** [for path in data_files: for token_seq in load_data_file(path): ...], on
    the graphs decoded from the files. The sequences a generator yields
    before it raises are counted, and then the exception passes through. *)
Fixpoint count_files {str : StrLower} (fuel : nat) (data_files : list Graph)
    (cnt : Counter)
  : outcome Counter :=
  match data_files with
  | [] => Return cnt
  | g :: data_files' =>
    let '(token_seqs, st) := load_data_file fuel g in
    match st with
    | Finished => count_files fuel data_files' (count_tokens cnt token_seqs)
    | Raised e => Raise e
    | OutOfFuel => Unfinished
    end
  end.

(** [for token, _ in cnt.most_common(vocab_size): vocab.add_or_get_id(token)] *)
Definition add_tokens (vocab : Vocabulary) (items : list (string * Z))
  : Vocabulary :=
  fold_left (λ v item, (add_or_get_id v item.1).1) items vocab.

(** The vocabulary before the corpus is read. *)
Definition reserved_vocabulary : Vocabulary :=
  let vocab := new_vocabulary true true in
  let vocab := (add_or_get_id vocab START_SYMBOL).1 in
  (add_or_get_id vocab END_SYMBOL).1.

(** [build_vocab_from_data_dir]; [data_files] are the graphs of the files
    that [get_data_files_from_directory] selects, in its order. *)
Definition build_vocab_from_data_dir {str : StrLower} (fuel : nat)
    (data_files : list Graph)
    (vocab_size : Z) : outcome Vocabulary :=
  let vocab := reserved_vocabulary in
  match count_files fuel data_files [] with
  | Return cnt => Return (add_tokens vocab (most_common vocab_size cnt))
  | Raise e => Raise e
  | Unfinished => Unfinished
  end.

(** ** [tensorise_token_sequence] *)

(** The body of [for i in range(length)]: the id appended at position [i]. *)
Definition tensorise_position (vocab : Vocabulary) (token_seq : list string)
    (i : Z) : result nat :=
  if i =? 0 then get_id_or_unk vocab START_SYMBOL
  else if len token_seq >=? i then
    (token <- getitem token_seq (i - 1) ;; get_id_or_unk vocab token)
  else if i =? len token_seq + 1 then get_id_or_unk vocab END_SYMBOL
  else get_id_or_unk vocab get_pad.

Definition tensorise_token_sequence (vocab : Vocabulary) (length : Z)
    (token_seq : list string) : result (list nat) :=
  mapM (tensorise_position vocab token_seq) (range length).

(** The id of a token of the sequence: its own, or the unknown id. *)
Definition id_or (unk_id : nat) (vocab : Vocabulary) (token : string) : nat :=
  default unk_id (token_to_id vocab !! token).

(** [token_seq[i-1]], for the positions [i] that hold a token. *)
Definition token_at (token_seq : list string) (i : Z) : string :=
  default ""%string (token_seq !! Z.to_nat (i - 1)).

(** ** [get_minibatch_iterator] *)

(** [more_itertools.chunked(l, n)] for [n > 0]: lists of [n] consecutive
    items, the last one with what is left. *)
Equations? chunks {A} (n : nat) (l : list A) : list (list A)
  by wf (length l) lt :=
  chunks 0 l := [];
  chunks (S n) [] := [];
  chunks (S n) (x :: l) :=
    take (S n) (x :: l) :: chunks (S n) (drop (S n) (x :: l)).
Proof. simpl. rewrite length_drop. lia. Qed.

(** [chunked(l, n)] for an integer [n]: [islice] refuses a negative [n], and
    with [n = 0] the first chunk is empty, which ends the iteration. *)
Definition chunked {A} (l : list A) (n : Z) : result (list (list A)) :=
  if n <? 0 then Err ValueError else Ok (chunks (Z.to_nat n) l).

(** [for minibatch_indices in ...: if len(minibatch_indices) < batch_size and
    drop_remainder: break; ...; yield ...]: the chunks that are yielded. *)
Fixpoint emitted (batch_size : Z) (drop_remainder : bool)
    (cs : list (list Z)) : list (list Z) :=
  match cs with
  | [] => []
  | c :: cs' =>
    if (len c <? batch_size) && drop_remainder then []
    else c :: emitted batch_size drop_remainder cs'
  end.

(** The row indices of the batches, batch by batch. [shuffle] is what
    [np.random.shuffle] makes of the indices. *)
Definition minibatch_indices (shuffle : list Z -> list Z) (num_rows : Z)
    (batch_size : Z) (is_training drop_remainder : bool)
  : result (list (list Z)) :=
  let indices := range num_rows in
  let indices := if is_training then shuffle indices else indices in
  cs <- chunked indices batch_size ;;
  Ok (emitted batch_size drop_remainder cs).

(** [token_seqs[minibatch_indices]] *)
Definition take_rows {A} (token_seqs : list A) (minibatch_indices : list Z)
  : result (list A) :=
  mapM (getitem token_seqs) minibatch_indices.

(** [get_minibatch_iterator]: the batches it yields, in order. *)
Definition get_minibatch_iterator {A} (shuffle : list Z -> list Z)
    (token_seqs : list A) (batch_size : Z)
    (is_training drop_remainder : bool) : result (list (list A)) :=
  batches <- minibatch_indices shuffle (len token_seqs) batch_size
                               is_training drop_remainder ;;
  mapM (take_rows token_seqs) batches.

(** ** [get_data_files_from_directory] *)

(** Insertion into a list of paths in ascending order. *)
Fixpoint insert_path (p : string) (l : list string) : list string :=
  match l with
  | [] => [p]
  | q :: l' => if String.leb p q then p :: q :: l' else q :: insert_path p l'
  end.

(** [sorted(files)] on strings, compared character by character. *)
Definition sorted_paths (files : list string) : list string :=
  foldr insert_path [] files.

(** [l[:n]]: the [n] first items, and all but the [-n] last ones when [n] is
    negative. *)
Definition slice_to {A} (l : list A) (n : Z) : list A :=
  if n <? 0 then take (Z.to_nat (len l + n)) l else take (Z.to_nat n) l.

(** [get_data_files_from_directory]; [files] are the paths that [iglob]
    finds under the directory, in its order, and [max_num_files] is [None]
    or an integer, which counts as false when it is 0. *)
Definition get_data_files_from_directory (files : list string)
    (max_num_files : option Z) : list string :=
  match max_num_files with
  | None => files
  | Some n => if n =? 0 then files else slice_to (sorted_paths files) n
  end.

(** ** [load_data_from_dir] *)

(** [load_data_from_dir], on the graphs of the files: the generator
    expression tensorises every token sequence as soon as [load_data_file]
    yields it, so that an exception of the tensoriser comes before whatever
    ends the generator. The rows have the same length, and [np.array] with
    [dtype=np.int32] is taken as the identity on them (the ids are far below
    [2^31]). *)
Fixpoint load_data_from_dir {str : StrLower} (fuel : nat) (vocab : Vocabulary)
    (length : Z)
    (data_files : list Graph) : outcome (list (list nat)) :=
  match data_files with
  | [] => Return []
  | g :: data_files' =>
    let '(token_seqs, st) := load_data_file fuel g in
    match mapM (tensorise_token_sequence vocab length) token_seqs with
    | Err e => Raise e
    | Ok rows =>
      match st with
      | Finished =>
        match load_data_from_dir fuel vocab length data_files' with
        | Return rows' => Return (rows ++ rows')
        | Raise e => Raise e
        | Unfinished => Unfinished
        end
      | Raised e => Raise e
      | OutOfFuel => Unfinished
      end
    end
  end.

(** ** Notions used to state further properties *)

(** The token sequences of the files of a corpus, in the order in which
    they are yielded. *)
Definition corpus {str : StrLower} (fuel : nat) (data_files : list Graph)
  : list (list string) :=
  concat (map (λ g, (load_data_file fuel g).1) data_files).

(** [cnt[token]] *)
Fixpoint counter_get (cnt : Counter) (token : string) : Z :=
  match cnt with
  | [] => 0
  | (t, c) :: cnt' => if decide (t = token) then c else counter_get cnt' token
  end.

(** How often a token occurs in a list of tokens. *)
Definition occurrences (token : string) (tokens : list string) : Z :=
  len (List.filter (λ t, bool_decide (t = token)) tokens).

(** The four reserved symbols. *)
Definition reserved_symbols : list string :=
  [get_unk; get_pad; START_SYMBOL; END_SYMBOL].

(** The node that a dictionary keyed by [key] holds for [k] after the nodes
    [ns] that satisfy [keep] have been assigned in their order. *)
Definition last_with (keep : FeatureNode -> bool) (key : FeatureNode -> Z)
    (k : Z) (ns : list FeatureNode) : option FeatureNode :=
  last (List.filter (λ n, keep n && bool_decide (key n = k)) ns).

(** The order of the paths: [p <= q] on Python strings. *)
Definition path_le (p q : string) : Prop := String.leb p q = true.

(** The id at position [i] of a row, with a vocabulary that has the
    reserved symbols under the given ids. *)
Definition position_id (unk_id pad_id start_id end_id : nat)
    (vocab : Vocabulary) (token_seq : list string) (i : Z) : nat :=
  if i =? 0 then start_id
  else if len token_seq >=? i then id_or unk_id vocab (token_at token_seq i)
  else if i =? len token_seq + 1 then end_id
  else pad_id.

(** What the vocabulary needs of [str.lower]: no string is lowercased to one
    of the reserved symbols (each of them has capital letters, and no
    character is lowercased to a capital letter). *)
Definition lower_avoids_reserved {str : StrLower} : Prop :=
  ∀ s, lower s ∉ reserved_symbols.

(** ** Example records *)

Module Examples.

Definition method_node (i s e : Z) : FeatureNode :=
  mkNode i (OTHER_NODE 2) "METHOD" s e.

Definition next (s d : Z) : FeatureEdge := mkEdge s d NEXT_TOKEN.

(** Three tokens; the first one has two next-token edges. *)
Definition g_fork : Graph :=
  mkGraph
    [ method_node 0 0 30;
      mkNode 1 TOKEN "A" 0 10;
      mkNode 2 IDENTIFIER_TOKEN "B" 10 20;
      mkNode 3 TOKEN "C" 20 30 ]
    [ next 1 2; mkEdge 1 0 (OTHER_EDGE 3); next 1 3; next 2 3 ].

(** The chain of the first token comes back to it; the last token of the
    method is never reached. *)
Definition g_cycle : Graph :=
  mkGraph
    [ method_node 0 0 30;
      mkNode 1 TOKEN "A" 0 10;
      mkNode 2 TOKEN "B" 10 20;
      mkNode 3 TOKEN "C" 20 30 ]
    [ next 1 2; next 2 1 ].

(** The first token has no edge at all. *)
Definition g_stuck : Graph :=
  mkGraph
    [ method_node 0 0 30;
      mkNode 1 TOKEN "A" 0 10;
      mkNode 3 TOKEN "C" 20 30 ]
    [ ].

(** The next-token edge of the first token leads to an id without node. *)
Definition g_dangling : Graph :=
  mkGraph
    [ method_node 0 0 30;
      mkNode 1 TOKEN "A" 0 10;
      mkNode 3 TOKEN "C" 20 30 ]
    [ next 1 99 ].

(** The next-token edges lead from the first token to the last one through
    an id without node. *)
Definition g_through_missing : Graph :=
  mkGraph
    [ method_node 0 0 30;
      mkNode 1 TOKEN "A" 0 10;
      mkNode 3 TOKEN "C" 20 30 ]
    [ next 1 99; next 99 3 ].

(** No token starts where the second method does. *)
Definition g_missing_start : Graph :=
  mkGraph
    [ method_node 0 0 30;
      mkNode 1 TOKEN "A" 0 10;
      mkNode 3 TOKEN "C" 20 30;
      method_node 4 5 30 ]
    [ next 1 3 ].

(** No token ends where the method does. *)
Definition g_missing_end : Graph :=
  mkGraph
    [ method_node 0 0 31;
      mkNode 1 TOKEN "A" 0 10;
      mkNode 3 TOKEN "C" 20 30 ]
    [ next 1 3 ].

(** [public int foo] and a closing token, with three methods: the whole
    text, a single token (which gives no token at all) and the tail. *)
Definition g_linear : Graph :=
  mkGraph
    [ method_node 0 0 40;
      mkNode 1 TOKEN "Public" 0 6;
      mkNode 2 TOKEN "int" 7 10;
      method_node 5 50 51;
      mkNode 3 IDENTIFIER_TOKEN "Foo" 11 14;
      mkNode 4 TOKEN "}" 39 40;
      mkNode 6 TOKEN "x" 50 51;
      method_node 7 11 40 ]
    [ next 1 2; next 2 3; mkEdge 0 1 (OTHER_EDGE 3); next 3 4 ].

(** The vocabulary of a corpus with the tokens [public], [int], [foo]. *)
Definition vocab_pif : Vocabulary :=
  add_tokens reserved_vocabulary [("public", 1); ("int", 1); ("foo", 1)]%string.

End Examples.
(** ** The edge index and the step of the traversal *)

Section EdgeIndex.

Implicit Types (g : Graph) (e : FeatureEdge) (es : list FeatureEdge).

Lemma index_edge_lookup (d : gmap Z (list FeatureEdge)) e src :
  index_edge d e !! src =
    if decide (sourceId e = src)
    then Some (default [] (d !! src) ++ [e])
    else d !! src.
Proof.
  unfold index_edge. case_decide as Hsrc.
  - subst src. destruct (d !! sourceId e) eqn:Hd; by rewrite lookup_insert_eq.
  - destruct (d !! sourceId e); by rewrite lookup_insert_ne.
Qed.

Lemma fold_index_edge_lookup es (d : gmap Z (list FeatureEdge)) src :
  fold_left index_edge es d !! src =
    match filter (λ e, sourceId e = src) es with
    | [] => d !! src
    | l => Some (default [] (d !! src) ++ l)
    end.
Proof.
  revert d. induction es as [|e es IH]; intros d; simpl.
  - done.
  - rewrite IH, index_edge_lookup, filter_cons.
    case_decide as Hsrc; simpl.
    + destruct (filter _ es) as [|e' l]; [done|].
      by rewrite <- app_assoc.
    + done.
Qed.

(** [edges_dict[src]] is the list of the edges leaving [src], in the order
    of the record, and [src] is a key only when there is one. *)
Lemma build_edges_lookup g src :
  build_edges g !! src =
    match out_edges g src with
    | [] => None
    | l => Some l
    end.
Proof.
  unfold build_edges, out_edges. rewrite fold_index_edge_lookup.
  by rewrite lookup_empty.
Qed.

Lemma follow_edges_snoc es e nid :
  follow_edges (es ++ [e]) nid =
    if is_next_token e then destinationId e else follow_edges es nid.
Proof. unfold follow_edges. by rewrite fold_left_app. Qed.

(** The inner [for] leaves [nid] at the destination of the last next-token
    edge of the list, and unchanged when there is none. *)
Lemma follow_edges_last es nid :
  follow_edges es nid =
    default nid (destinationId <$> last (next_token_edges es)).
Proof.
  induction es as [|e es IH] using rev_ind; [done|].
  rewrite follow_edges_snoc. unfold next_token_edges, is_next_token in *.
  rewrite filter_app, filter_cons, filter_nil.
  case_bool_decide; case_decide; try done.
  - by rewrite last_snoc.
  - by rewrite app_nil_r.
Qed.

Lemma advance_last g nid :
  advance (build_edges g) nid =
    default nid (destinationId <$> last (next_token_edges (out_edges g nid))).
Proof.
  unfold advance. rewrite build_edges_lookup.
  destruct (out_edges g nid) eqn:Hout; [done|].
  apply follow_edges_last.
Qed.

(** A node without a next-token edge is left in place. *)
Lemma advance_stuck g nid :
  next_token_edges (out_edges g nid) = [] -> advance (build_edges g) nid = nid.
Proof. intros H. by rewrite advance_last, H. Qed.

End EdgeIndex.

(** One iteration of the loop of a traversal. *)
Lemma while_loop_step {str : StrLower} fuel ix ed m en n nid tokens :
  tokens_by_end_pos ix !! endPosition m = Some en ->
  nid ≠ id en ->
  nodes_dict ix !! nid = Some n ->
  while_loop (S fuel) ix ed m nid tokens =
    while_loop fuel ix ed m (advance ed nid) (tokens ++ [lower (contents n)]).
Proof.
  intros Hen Hne Hn. simpl. rewrite Hen, Hn.
  by rewrite bool_decide_eq_false_2.
Qed.

Lemma while_loop_exit {str : StrLower} fuel ix ed m en tokens :
  tokens_by_end_pos ix !! endPosition m = Some en ->
  while_loop (S fuel) ix ed m (id en) tokens = Done tokens.
Proof. intros Hen. simpl. rewrite Hen. by rewrite bool_decide_eq_true_2. Qed.

(** ** Which edge the traversal follows *)

(** C1, as the code has it: when the current node has next-token edges, the
    traversal advances to the destination of the LAST of them in the order
    of the record (every next-token edge of the node assigns [nid], and the
    inner loop has no [break]); the node visited next is that destination. *)
Theorem traversal_takes_last_next_token {str : StrLower} (g : Graph) (nid : Z) (e : FeatureEdge) :
  last (next_token_edges (out_edges g nid)) = Some e ->
  advance (build_edges g) nid = destinationId e ∧
  ∀ fuel m en n tokens,
    tokens_by_end_pos (build_index g) !! endPosition m = Some en ->
    nid ≠ id en ->
    nodes_dict (build_index g) !! nid = Some n ->
    while_loop (S fuel) (build_index g) (build_edges g) m nid tokens =
      while_loop fuel (build_index g) (build_edges g) m (destinationId e)
                 (tokens ++ [lower (contents n)]).
Proof.
  intros Hlast.
  assert (Hadv : advance (build_edges g) nid = destinationId e)
    by (by rewrite advance_last, Hlast).
  split; [done|].
  intros fuel m en n tokens Hen Hne Hn.
  by rewrite (while_loop_step _ _ _ _ en n), Hadv.
Qed.

Lemma traversal_takes_last_next_token_witness :
  last (next_token_edges (out_edges Examples.g_fork 1)) = Some (Examples.next 1 3) ∧
  advance (build_edges Examples.g_fork) 1 = 3.
Proof.
  split; [reflexivity|].
  apply (traversal_takes_last_next_token (str := ascii_str) Examples.g_fork 1 (Examples.next 1 3)).
  reflexivity.
Defined.

(** C1, as stated, fails: the first token of [g_fork] has the next-token
    edges to 2 and to 3, in this order, and the traversal goes on with 3. *)
Lemma first_next_token_edge_not_taken :
  next_token_edges (out_edges Examples.g_fork 1)
    = [Examples.next 1 2; Examples.next 1 3] ∧
  advance (build_edges Examples.g_fork) 1 ≠ destinationId (Examples.next 1 2) ∧
  load_data_file (str := ascii_str) 2 Examples.g_fork = ([["a"%string]], Finished).
Proof. split; [reflexivity|]. split; [|by vm_compute]. by vm_compute. Qed.

(** ** The loop of a traversal and the chain of next-token edges *)

Section Chain.

Context {str : StrLower}.

Context (ix : node_index) (ed : gmap Z (list FeatureEdge)) (m en : FeatureNode).
Hypothesis Hen : tokens_by_end_pos ix !! endPosition m = Some en.

Lemma chain_succ_r s k : chain ed s (S k) = advance ed (chain ed s k).
Proof. revert s. induction k as [|k IH]; intros s; [done|]. simpl. apply IH. Qed.

Lemma chain_add s a b : chain ed s (a + b) = chain ed (chain ed s a) b.
Proof. revert s. induction a as [|a IH]; intros s; [done|]. simpl. apply IH. Qed.

Lemma chain_open_tail s k :
  chain_open ix ed s (id en) (S k) -> chain_open ix ed (advance ed s) (id en) k.
Proof. intros H j Hj. apply (H (S j)). lia. Qed.

Lemma chain_tokens_length s k :
  chain_open ix ed s (id en) k -> length (chain_tokens ix ed s k) = k.
Proof.
  revert s. induction k as [|k IH]; intros s Hopen; [done|].
  destruct (Hopen 0%nat ltac:(lia)) as [_ [n Hn]]. simpl in Hn. simpl.
  rewrite Hn. simpl. f_equal. apply IH. by apply chain_open_tail.
Qed.

(** [k] iterations along an open chain. *)
Lemma while_loop_chain k fuel s tokens :
  chain_open ix ed s (id en) k ->
  while_loop (k + fuel) ix ed m s tokens =
    while_loop fuel ix ed m (chain ed s k) (tokens ++ chain_tokens ix ed s k).
Proof.
  revert s tokens. induction k as [|k IH]; intros s tokens Hopen.
  - simpl. by rewrite app_nil_r.
  - destruct (Hopen 0%nat ltac:(lia)) as [Hne [n Hn]]. simpl in Hne, Hn.
    replace (S k + fuel)%nat with (S (k + fuel)) by lia.
    rewrite (while_loop_step _ _ _ _ en n) by done.
    rewrite IH by (by apply chain_open_tail).
    simpl. rewrite Hn. by rewrite <- app_assoc.
Qed.

(** The loop is left when the chain reaches the end node through nodes of
    the record. *)
Lemma while_loop_reaches k s tokens :
  chain ed s k = id en ->
  (∀ j, (j < k)%nat -> is_Some (nodes_dict ix !! chain ed s j)) ->
  ∃ fuel tokens', while_loop fuel ix ed m s tokens = Done tokens'.
Proof.
  revert s tokens. induction k as [|k IH]; intros s tokens Hk Hnodes.
  - simpl in Hk. subst s. exists 1%nat, tokens. by apply while_loop_exit.
  - destruct (decide (s = id en)) as [->|Hne].
    + exists 1%nat, tokens. by apply while_loop_exit.
    + destruct (Hnodes 0%nat ltac:(lia)) as [n Hn]. simpl in Hn.
      destruct (IH (advance ed s) (tokens ++ [lower (contents n)]))
        as (fuel & tokens' & Hrun).
      * done.
      * intros j Hj. apply (Hnodes (S j)). lia.
      * exists (S fuel), tokens'.
        by rewrite (while_loop_step _ _ _ _ en n).
Qed.

(** A loop that is left has reached the end node along an open chain, and
    has appended the tokens of that chain. *)
Lemma while_loop_done fuel s tokens tokens' :
  while_loop fuel ix ed m s tokens = Done tokens' ->
  ∃ k, (k < fuel)%nat ∧ chain ed s k = id en ∧ chain_open ix ed s (id en) k ∧
       tokens' = tokens ++ chain_tokens ix ed s k.
Proof.
  revert s tokens. induction fuel as [|fuel IH]; intros s tokens; [done|].
  simpl. rewrite Hen. case_bool_decide as Hs.
  - intros [= <-]. exists 0%nat. split; [lia|]. split; [done|].
    split; [intros j Hj; lia|]. simpl. by rewrite app_nil_r.
  - destruct (nodes_dict ix !! s) as [n|] eqn:Hn; [|done].
    intros Hrun. destruct (IH _ _ Hrun) as (k & Hk & Hreach & Hopen & ->).
    exists (S k). split; [lia|]. split; [done|]. split.
    + intros [|j] Hj; simpl; [by rewrite Hn|]. apply Hopen. lia.
    + simpl. rewrite Hn. by rewrite <- app_assoc.
Qed.

(** A loop that raises has reached an id without node along an open chain. *)
Lemma while_loop_fail fuel s tokens e :
  while_loop fuel ix ed m s tokens = Fail e ->
  ∃ k, (k < fuel)%nat ∧ chain_open ix ed s (id en) k ∧
       chain ed s k ≠ id en ∧ nodes_dict ix !! chain ed s k = None ∧
       e = KeyError (PyInt (chain ed s k)).
Proof.
  revert s tokens. induction fuel as [|fuel IH]; intros s tokens; [done|].
  simpl. rewrite Hen. case_bool_decide as Hs; [done|].
  destruct (nodes_dict ix !! s) as [n|] eqn:Hn.
  - intros Hrun. destruct (IH _ _ Hrun) as (k & Hk & Hopen & Hne & Hnone & ->).
    exists (S k). split; [lia|]. split; [|done].
    intros [|j] Hj; simpl; [by rewrite Hn|]. apply Hopen. lia.
  - intros [= <-]. exists 0%nat. split; [lia|]. split; [|done].
    intros j Hj; lia.
Qed.

(** More iterations do not change the result of a loop that has ended. *)
Lemma while_loop_more fuel d s tokens :
  (∀ nid tokens', while_loop fuel ix ed m s tokens ≠ Running nid tokens') ->
  while_loop (fuel + d) ix ed m s tokens = while_loop fuel ix ed m s tokens.
Proof.
  revert s tokens. induction fuel as [|fuel IH]; intros s tokens Hend.
  - by destruct (Hend s tokens).
  - simpl in *. rewrite Hen in *. case_bool_decide; [done|].
    destruct (nodes_dict ix !! s); [|done]. by apply IH.
Qed.

(** A chain that comes back to its start before the end node stays open. *)
Lemma chain_cycle_open s p :
  (0 < p)%nat -> chain ed s p = s -> chain_open ix ed s (id en) p ->
  ∀ k, chain_open ix ed s (id en) k.
Proof.
  intros Hp Hback Hopen k j _.
  assert (Hmul : ∀ q, chain ed s (q * p) = s).
  { induction q as [|q IH]; [done|]. simpl.
    by rewrite chain_add, Hback. }
  rewrite (Nat.div_mod j p) by lia.
  rewrite (Nat.mul_comm p), chain_add, Hmul.
  apply Hopen. apply Nat.mod_upper_bound. lia.
Qed.

(** A loop on an open chain runs on. *)
Lemma while_loop_running fuel s tokens :
  chain_open ix ed s (id en) fuel ->
  while_loop fuel ix ed m s tokens =
    Running (chain ed s fuel) (tokens ++ chain_tokens ix ed s fuel).
Proof.
  intros Hopen. rewrite <- (Nat.add_0_r fuel) at 1.
  by rewrite while_loop_chain.
Qed.

End Chain.

(** ** The generator as a whole *)

Lemma fold_index_node_methods ns ix :
  methods (fold_left index_node ns ix) =
    methods ix ++ List.filter is_method_root ns.
Proof.
  revert ix. induction ns as [|n ns IH]; intros ix; simpl.
  - by rewrite app_nil_r.
  - rewrite IH. simpl. destruct (is_method_root n); [|done].
    by rewrite <- app_assoc.
Qed.

(** The method roots are the nodes marked as such, in the order of the
    record. *)
Lemma build_index_methods g :
  methods (build_index g) = List.filter is_method_root (node g).
Proof. unfold build_index. by rewrite fold_index_node_methods. Qed.

Section Generator.

Context {str : StrLower}.

Context (fuel : nat) (ix : node_index) (ed : gmap Z (list FeatureEdge)).

Lemma run_methods_app ms1 rest ts :
  Forall2 (λ m t, extract_method fuel ix ed m = Done t) ms1 ts ->
  run_methods fuel ix ed (ms1 ++ rest) =
    (List.filter nonempty ts ++ (run_methods fuel ix ed rest).1,
     (run_methods fuel ix ed rest).2).
Proof.
  induction 1 as [|m t ms1 ts Hm _ IH]; simpl.
  - by destruct (run_methods fuel ix ed rest).
  - rewrite Hm, IH. by destruct (nonempty t).
Qed.

Lemma run_methods_all_done ms ts :
  Forall2 (λ m t, extract_method fuel ix ed m = Done t) ms ts ->
  run_methods fuel ix ed ms = (List.filter nonempty ts, Finished).
Proof.
  intros H. rewrite <- (app_nil_r ms), (run_methods_app _ _ ts) by done.
  simpl. by rewrite app_nil_r.
Qed.

Lemma run_methods_completed ms :
  (run_methods fuel ix ed ms).1 =
    List.filter nonempty (completed (map (extract_method fuel ix ed) ms)).
Proof.
  induction ms as [|m ms IH]; simpl; [done|].
  destruct (extract_method fuel ix ed m) as [t| |]; simpl; [|done..].
  destruct (run_methods fuel ix ed ms) as [ys st]. simpl in IH. subst ys.
  by destruct (nonempty t).
Qed.

(** A generator that meets a traversal still running does not end, unless an
    earlier traversal raised. *)
Lemma run_methods_running ms1 m ms2 nid tokens :
  Forall (λ m', ∀ e, extract_method fuel ix ed m' ≠ Fail e) ms1 ->
  extract_method fuel ix ed m = Running nid tokens ->
  (run_methods fuel ix ed (ms1 ++ m :: ms2)).2 = OutOfFuel.
Proof.
  intros Hms1 Hm. induction Hms1 as [|m' ms1 Hm' _ IH]; simpl.
  - by rewrite Hm.
  - destruct (extract_method fuel ix ed m') as [t|e|]; simpl.
    + by destruct (run_methods fuel ix ed (ms1 ++ m :: ms2)).
    + by destruct (Hm' e).
    + done.
Qed.

End Generator.

(** ** Traversals that do not reach the end node *)

Lemma follow_edges_none es nid :
  Forall (λ e, etype e ≠ NEXT_TOKEN) es -> follow_edges es nid = nid.
Proof.
  induction es as [|e es IH] using rev_ind; [done|].
  rewrite Forall_app, Forall_singleton. intros [Hes He].
  rewrite follow_edges_snoc. unfold is_next_token.
  rewrite bool_decide_eq_false_2 by done. by apply IH.
Qed.

Lemma advance_no_next_token ed nid :
  no_next_token_edge ed nid -> advance ed nid = nid.
Proof.
  unfold no_next_token_edge, advance. destruct (ed !! nid); [|done].
  apply follow_edges_none.
Qed.

(** Without a next-token edge the loop stays at its node and appends the
    token of the node at every iteration. *)
Lemma while_loop_stuck {str : StrLower} fuel ix ed m en n nid tokens :
  tokens_by_end_pos ix !! endPosition m = Some en ->
  nid ≠ id en ->
  nodes_dict ix !! nid = Some n ->
  no_next_token_edge ed nid ->
  while_loop fuel ix ed m nid tokens =
    Running nid (tokens ++ replicate fuel (lower (contents n))).
Proof.
  intros Hen Hne Hn Hstuck. revert tokens.
  induction fuel as [|fuel IH]; intros tokens.
  - simpl. by rewrite app_nil_r.
  - rewrite (while_loop_step _ _ _ _ en n) by done.
    rewrite advance_no_next_token by done.
    rewrite IH. simpl. by rewrite <- app_assoc.
Qed.

(** A traversal whose chain comes back to the start node runs on. *)
Lemma extract_method_cycle {str : StrLower} fuel ix ed m sn en p :
  tokens_by_start_pos ix !! startPosition m = Some sn ->
  tokens_by_end_pos ix !! endPosition m = Some en ->
  (0 < p)%nat ->
  chain ed (id sn) p = id sn ->
  chain_open ix ed (id sn) (id en) p ->
  extract_method fuel ix ed m =
    Running (chain ed (id sn) fuel) (chain_tokens ix ed (id sn) fuel) ∧
  length (chain_tokens ix ed (id sn) fuel) = fuel.
Proof.
  intros Hsn Hen Hp Hback Hopen.
  pose proof (chain_cycle_open ix ed en (id sn) p Hp Hback Hopen fuel) as Hall.
  unfold extract_method. rewrite Hsn. split.
  - by rewrite (while_loop_running ix ed m en Hen).
  - by apply (chain_tokens_length ix ed en).
Qed.

(** A traversal that completes has reached the end node. *)
Lemma extract_method_done_reaches {str : StrLower} fuel ix ed m tokens :
  extract_method fuel ix ed m = Done tokens ->
  ∃ sn en k,
    tokens_by_start_pos ix !! startPosition m = Some sn ∧
    tokens_by_end_pos ix !! endPosition m = Some en ∧
    chain ed (id sn) k = id en.
Proof.
  unfold extract_method.
  destruct (tokens_by_start_pos ix !! startPosition m) as [sn|] eqn:Hsn; [|done].
  destruct (tokens_by_end_pos ix !! endPosition m) as [en|] eqn:Hen.
  - intros Hrun.
    destruct (while_loop_done ix ed m en Hen _ _ _ _ Hrun)
      as (k & _ & Hreach & _).
    by exists sn, en, k.
  - destruct fuel; simpl; [done|]. by rewrite Hen.
Qed.

(** ** Properties of [load_data_file] *)

(** A chain that comes back to its start goes round. *)
Lemma chain_periodic ed s p j :
  (0 < p)%nat -> chain ed s p = s -> chain ed s j = chain ed s (j mod p).
Proof.
  intros Hp Hback.
  assert (Hmul : ∀ q, chain ed s (q * p) = s).
  { induction q as [|q IH]; [done|]. simpl. by rewrite chain_add, Hback. }
  rewrite (Nat.div_mod j p) at 1 by lia.
  by rewrite (Nat.mul_comm p), chain_add, Hmul.
Qed.

(** A traversal that meets an id without node, after nodes of the record
    that are not the end node, raises the [KeyError] of that id. *)
Lemma extract_method_missing_node {str : StrLower} fuel ix ed m sn en j :
  tokens_by_start_pos ix !! startPosition m = Some sn ->
  tokens_by_end_pos ix !! endPosition m = Some en ->
  chain_open ix ed (id sn) (id en) j ->
  chain ed (id sn) j ≠ id en ->
  nodes_dict ix !! chain ed (id sn) j = None ->
  (j < fuel)%nat ->
  extract_method fuel ix ed m = Fail (KeyError (PyInt (chain ed (id sn) j))).
Proof.
  intros Hsn Hen Hopen Hne Hnone Hfuel. unfold extract_method. rewrite Hsn.
  replace fuel with (j + S (fuel - S j))%nat by lia.
  rewrite (while_loop_chain ix ed m en Hen) by done.
  simpl. rewrite Hen, Hnone. by rewrite bool_decide_eq_false_2.
Qed.

(** C4, as the code has it: [load_data_file] has no cycle detection. When
    the chain followed from the start node of a method root comes back to
    the start node before it reaches the end node, the traversal never
    completes, and what it raises, if anything, is the [KeyError] of an id
    of the cycle that is no node of the record. When all ids of the cycle
    are nodes, the traversal never ends and raises nothing: after any number
    of iterations the loop is still running and has appended one token per
    iteration, and the generator does not end either, unless the traversal
    of an earlier method root raised. When an id of the cycle is no node,
    the traversal raises the [KeyError] of the first such id. *)
Theorem cycle_is_not_detected {str : StrLower} (g : Graph) (fuel : nat)
    (ms1 ms2 : list FeatureNode) (m sn en : FeatureNode) (p : nat) :
  let ix := build_index g in
  let ed := build_edges g in
  List.filter is_method_root (node g) = ms1 ++ m :: ms2 ->
  tokens_by_start_pos ix !! startPosition m = Some sn ->
  tokens_by_end_pos ix !! endPosition m = Some en ->
  (0 < p)%nat ->
  chain ed (id sn) p = id sn ->
  (∀ j, (j < p)%nat -> chain ed (id sn) j ≠ id en) ->
  (∀ tokens, extract_method fuel ix ed m ≠ Done tokens) ∧
  (∀ e, extract_method fuel ix ed m = Fail e ->
     ∃ j, (j < p)%nat ∧ nodes_dict ix !! chain ed (id sn) j = None ∧
          e = KeyError (PyInt (chain ed (id sn) j))) ∧
  ((∀ j, (j < p)%nat -> is_Some (nodes_dict ix !! chain ed (id sn) j)) ->
   extract_method fuel ix ed m =
     Running (chain ed (id sn) fuel) (chain_tokens ix ed (id sn) fuel) ∧
   length (chain_tokens ix ed (id sn) fuel) = fuel ∧
   (Forall (λ m', ∀ e, extract_method fuel ix ed m' ≠ Fail e) ms1 ->
    (load_data_file fuel g).2 = OutOfFuel)) ∧
  (∀ j, (j < p)%nat ->
     nodes_dict ix !! chain ed (id sn) j = None ->
     (∀ i, (i < j)%nat -> is_Some (nodes_dict ix !! chain ed (id sn) i)) ->
     (j < fuel)%nat ->
     extract_method fuel ix ed m =
       Fail (KeyError (PyInt (chain ed (id sn) j)))).
Proof.
  intros ix ed Hms Hsn Hen Hp Hback Hnoend.
  assert (Hnever : ∀ j, chain ed (id sn) j ≠ id en).
  { intros j. rewrite (chain_periodic ed (id sn) p j Hp Hback).
    apply Hnoend. apply Nat.mod_upper_bound. lia. }
  split; [|split; [|split]].
  - intros tokens Hdone.
    destruct (extract_method_done_reaches fuel ix ed m tokens Hdone)
      as (sn' & en' & k & Hsn' & Hen' & Hreach).
    rewrite Hsn in Hsn'. rewrite Hen in Hen'.
    injection Hsn' as <-. injection Hen' as <-. by destruct (Hnever k).
  - intros e Hfail. unfold extract_method in Hfail. rewrite Hsn in Hfail.
    destruct (while_loop_fail ix ed m en Hen _ _ _ _ Hfail)
      as (k & _ & _ & _ & Hnone & ->).
    exists (k mod p)%nat.
    rewrite <- (chain_periodic ed (id sn) p k Hp Hback).
    split; [apply Nat.mod_upper_bound; lia|done].
  - intros Hnodes.
    destruct (extract_method_cycle fuel ix ed m sn en p) as [Hrun Hlen];
      try done.
    { intros j Hj. split; [by apply Hnoend|by apply Hnodes]. }
    split; [done|]. split; [done|].
    intros Hms1. unfold load_data_file. rewrite build_index_methods, Hms.
    by apply (run_methods_running _ _ _ _ _ _ _ _ Hms1 Hrun).
  - intros j Hj Hnone Hbefore Hfuel.
    apply (extract_method_missing_node fuel ix ed m sn en j); try done.
    intros i Hi. split; [apply Hnever|by apply Hbefore].
Qed.

Lemma g_cycle_open :
  chain_open (build_index Examples.g_cycle) (build_edges Examples.g_cycle) 1 3 2.
Proof.
  intros [|[|j]] Hj; [| |lia]; (split; [by vm_compute|vm_compute; eauto]).
Qed.

Lemma cycle_is_not_detected_witness :
  (load_data_file (str := ascii_str) 7 Examples.g_cycle).2 = OutOfFuel.
Proof.
  destruct (cycle_is_not_detected (str := ascii_str) Examples.g_cycle 7 [] []
              (Examples.method_node 0 0 30) (mkNode 1 TOKEN "A" 0 10)
              (mkNode 3 TOKEN "C" 20 30) 2) as (_ & _ & Hrun & _).
  - reflexivity.
  - reflexivity.
  - reflexivity.
  - lia.
  - reflexivity.
  - intros j Hj. by apply g_cycle_open.
  - apply Hrun.
    + intros j Hj. by apply g_cycle_open.
    + constructor.
Defined.

(** C4, as stated, fails: the chain of [g_cycle] goes from token 1 to token
    2 and back, and whatever the number of iterations the generator has
    neither ended nor raised, so that no [TraversalCycleError] is raised. *)
Lemma cycle_never_raises :
  (∀ fuel, load_data_file (str := ascii_str) fuel Examples.g_cycle = ([], OutOfFuel)) ∧
  ¬ ∃ fuel ys e, load_data_file (str := ascii_str) fuel Examples.g_cycle = (ys, Raised e) ∧
                 exc_class e = "TraversalCycleError"%string.
Proof.
  assert (Hrun : ∀ fuel, load_data_file (str := ascii_str) fuel Examples.g_cycle
                         = ([], OutOfFuel)).
  { intros fuel.
    destruct (extract_method_cycle (str := ascii_str) fuel (build_index Examples.g_cycle)
                (build_edges Examples.g_cycle) (Examples.method_node 0 0 30)
                (mkNode 1 TOKEN "A" 0 10) (mkNode 3 TOKEN "C" 20 30) 2)
      as [Hm _]; [reflexivity|reflexivity|lia|reflexivity|exact g_cycle_open|].
    unfold load_data_file. rewrite build_index_methods.
    change (List.filter is_method_root (node Examples.g_cycle))
      with [Examples.method_node 0 0 30].
    simpl. by rewrite Hm. }
  split; [done|].
  intros (fuel & ys & e & Hload & _). by rewrite Hrun in Hload.
Qed.

(** C5, as the code has it. A current node that is not the end node and has
    no next-token edge keeps the loop in place: it neither advances nor
    raises, and appends the lowercased contents of the node at every
    iteration. The traversal of a method root completes exactly when the
    chain of next-token edges (the last one of each node) leads from the
    start node to the id of the end node through ids of nodes of the record;
    it raises exactly when that chain meets an id without node before the
    end node, and what it raises is the [KeyError] of that id; otherwise it
    does not terminate: the loop is still running after any number of
    iterations. *)
Theorem traversal_completes_iff_chain_reaches_end {str : StrLower} (g : Graph)
    (m sn en : FeatureNode) :
  let ix := build_index g in
  let ed := build_edges g in
  tokens_by_start_pos ix !! startPosition m = Some sn ->
  tokens_by_end_pos ix !! endPosition m = Some en ->
  (∀ fuel nid n tokens,
     nid ≠ id en ->
     nodes_dict ix !! nid = Some n ->
     no_next_token_edge ed nid ->
     while_loop fuel ix ed m nid tokens =
       Running nid (tokens ++ replicate fuel (lower (contents n)))) ∧
  ((∃ fuel tokens, extract_method fuel ix ed m = Done tokens) ↔
   (∃ k, chain ed (id sn) k = id en ∧
         ∀ j, (j < k)%nat -> is_Some (nodes_dict ix !! chain ed (id sn) j))) ∧
  (∀ e, (∃ fuel, extract_method fuel ix ed m = Fail e) ↔
        (∃ k, chain_open ix ed (id sn) (id en) k ∧
              chain ed (id sn) k ≠ id en ∧
              nodes_dict ix !! chain ed (id sn) k = None ∧
              e = KeyError (PyInt (chain ed (id sn) k)))) ∧
  ((¬ ∃ k, chain ed (id sn) k = id en ∧
           ∀ j, (j < k)%nat -> is_Some (nodes_dict ix !! chain ed (id sn) j)) ->
   (¬ ∃ k, chain_open ix ed (id sn) (id en) k ∧
           chain ed (id sn) k ≠ id en ∧
           nodes_dict ix !! chain ed (id sn) k = None) ->
   ∀ fuel,
     extract_method fuel ix ed m =
       Running (chain ed (id sn) fuel) (chain_tokens ix ed (id sn) fuel) ∧
     length (chain_tokens ix ed (id sn) fuel) = fuel).
Proof.
  intros ix ed Hsn Hen. split; [|split; [|split]].
  - intros fuel nid n tokens Hne Hn Hstuck.
    by apply (while_loop_stuck _ _ _ _ en).
  - unfold extract_method. rewrite Hsn. split.
    + intros (fuel & tokens & Hrun).
      destruct (while_loop_done ix ed m en Hen _ _ _ _ Hrun)
        as (k & _ & Hreach & Hopen & _).
      exists k. split; [done|]. intros j Hj. by apply Hopen.
    + intros (k & Hreach & Hnodes).
      by apply (while_loop_reaches ix ed m en Hen k).
  - intros e. split.
    + intros (fuel & Hrun). unfold extract_method in Hrun. rewrite Hsn in Hrun.
      destruct (while_loop_fail ix ed m en Hen _ _ _ _ Hrun)
        as (k & _ & Hopen & Hne & Hnone & He).
      by exists k.
    + intros (k & Hopen & Hne & Hnone & ->). exists (S k).
      apply (extract_method_missing_node (S k) ix ed m sn en k);
        [done..|lia].
  - intros Hnoreach Hnofail.
    assert (Hopen : ∀ k, chain_open ix ed (id sn) (id en) k).
    { induction k as [|k IH]; [intros j Hj; lia|].
      intros j Hj. destruct (decide (j = k)) as [->|Hjk]; [|apply IH; lia].
      split.
      - intros Hreach. apply Hnoreach. exists k. split; [done|].
        intros i Hi. by apply IH.
      - destruct (nodes_dict ix !! chain ed (id sn) k) eqn:Hnode; [done|].
        destruct Hnofail. exists k. split; [done|]. split; [|done].
        intros Hreach. apply Hnoreach. exists k. split; [done|].
        intros i Hi. by apply IH. }
    intros fuel. unfold extract_method. rewrite Hsn. split.
    + by rewrite (while_loop_running ix ed m en Hen).
    + by apply (chain_tokens_length ix ed en).
Qed.

Lemma traversal_completes_iff_chain_reaches_end_witness :
  while_loop (str := ascii_str) 3 (build_index Examples.g_stuck) (build_edges Examples.g_stuck)
             (Examples.method_node 0 0 30) 1 []
    = Running 1 ["a"; "a"; "a"]%string.
Proof.
  destruct (traversal_completes_iff_chain_reaches_end (str := ascii_str) Examples.g_stuck
              (Examples.method_node 0 0 30) (mkNode 1 TOKEN "A" 0 10)
              (mkNode 3 TOKEN "C" 20 30)) as [Hstuck _].
  - reflexivity.
  - reflexivity.
  - apply (Hstuck 3%nat 1 (mkNode 1 TOKEN "A" 0 10) []).
    + by vm_compute.
    + reflexivity.
    + exact I.
Defined.

(** C5, as stated, fails where a next-token edge leads to an id without
    node. In [g_dangling] the traversal ends, with a [KeyError], although
    the chain never reaches the end node; in [g_through_missing] the
    next-token edges lead from the start node to the end node, and the
    traversal raises instead of completing. *)
Lemma traversal_ends_without_reaching_end :
  (extract_method (str := ascii_str) 2 (build_index Examples.g_dangling)
     (build_edges Examples.g_dangling) (Examples.method_node 0 0 30)
     = Fail (KeyError (PyInt 99)) ∧
   ∀ k, chain (build_edges Examples.g_dangling) 1 k ≠ 3) ∧
  (chain (build_edges Examples.g_through_missing) 1 2 = 3 ∧
   ∀ fuel tokens,
     extract_method (str := ascii_str) fuel (build_index Examples.g_through_missing)
       (build_edges Examples.g_through_missing) (Examples.method_node 0 0 30)
       ≠ Done tokens).
Proof.
  split; split.
  - reflexivity.
  - assert (H99 : ∀ k, chain (build_edges Examples.g_dangling) 99 k = 99).
    { induction k as [|k IH]; [done|]. simpl. exact IH. }
    intros [|k]; [by vm_compute|]. simpl.
    change (advance (build_edges Examples.g_dangling) 1) with 99.
    by rewrite H99.
  - reflexivity.
  - intros [|[|fuel]] tokens; by vm_compute.
Qed.

(** A method root without start token raises at once, and one without end
    token when the condition of the loop is first evaluated. *)
Lemma extract_method_missing_start {str : StrLower} fuel ix ed m :
  tokens_by_start_pos ix !! startPosition m = None ->
  extract_method fuel ix ed m = Fail (KeyError (PyInt (startPosition m))).
Proof. intros H. unfold extract_method. by rewrite H. Qed.

Lemma extract_method_missing_end {str : StrLower} fuel ix ed m :
  is_Some (tokens_by_start_pos ix !! startPosition m) ->
  tokens_by_end_pos ix !! endPosition m = None ->
  extract_method (S fuel) ix ed m = Fail (KeyError (PyInt (endPosition m))).
Proof. intros [sn Hsn] Hen. unfold extract_method. rewrite Hsn. simpl. by rewrite Hen. Qed.

(** C9, as the code has it: for a method root whose start position (looked
    up first) or end position has no entry in the index of the token nodes,
    [load_data_file] raises the [KeyError] of the dictionary, which carries
    the missing position, once the traversals of the method roots before it
    have completed and their non-empty lists have been yielded; the method
    root is not skipped. *)
Theorem missing_boundary_raises_key_error {str : StrLower} (g : Graph) (fuel : nat)
    (ms1 ms2 : list FeatureNode) (m : FeatureNode) (ts : list (list string)) :
  let ix := build_index g in
  let ed := build_edges g in
  List.filter is_method_root (node g) = ms1 ++ m :: ms2 ->
  Forall2 (λ m' t, extract_method (S fuel) ix ed m' = Done t) ms1 ts ->
  (tokens_by_start_pos ix !! startPosition m = None ->
   load_data_file (S fuel) g =
     (List.filter nonempty ts, Raised (KeyError (PyInt (startPosition m))))) ∧
  (is_Some (tokens_by_start_pos ix !! startPosition m) ->
   tokens_by_end_pos ix !! endPosition m = None ->
   load_data_file (S fuel) g =
     (List.filter nonempty ts, Raised (KeyError (PyInt (endPosition m))))).
Proof.
  intros ix ed Hms Hdone.
  unfold load_data_file. rewrite build_index_methods, Hms.
  rewrite (run_methods_app _ _ _ _ _ ts) by done.
  split.
  - intros Hsn. cbn [run_methods].
    rewrite extract_method_missing_start by done.
    simpl. by rewrite app_nil_r.
  - intros Hsn Hen. cbn [run_methods].
    rewrite extract_method_missing_end by done.
    simpl. by rewrite app_nil_r.
Qed.

Lemma missing_boundary_raises_key_error_witness :
  load_data_file (str := ascii_str) 3 Examples.g_missing_start
    = ([["a"%string]], Raised (KeyError (PyInt 5))) ∧
  load_data_file (str := ascii_str) 3 Examples.g_missing_end = ([], Raised (KeyError (PyInt 31))).
Proof.
  split.
  - apply (missing_boundary_raises_key_error (str := ascii_str) Examples.g_missing_start 2
             [Examples.method_node 0 0 30] [] (Examples.method_node 4 5 30)
             [["a"%string]]).
    + reflexivity.
    + repeat constructor.
    + reflexivity.
  - apply (missing_boundary_raises_key_error (str := ascii_str) Examples.g_missing_end 2
             [] [] (Examples.method_node 0 0 31) []).
    + reflexivity.
    + constructor.
    + vm_compute. eauto.
    + reflexivity.
Defined.

(** C9, as stated, fails: no token starts at position 5 in
    [g_missing_start], and what is raised is a [KeyError] with that
    position; no exception of [load_data_file] is of another class. *)
Lemma missing_boundary_error_is_key_error :
  load_data_file (str := ascii_str) 2 Examples.g_missing_start
    = ([["a"%string]], Raised (KeyError (PyInt 5))) ∧
  ¬ ∃ fuel ys e, load_data_file (str := ascii_str) fuel Examples.g_missing_start
                   = (ys, Raised e) ∧
                 exc_class e = "MissingTokenBoundaryError"%string.
Proof.
  split; [reflexivity|].
  intros (fuel & ys & e & _ & Hclass). by destruct e.
Qed.

(** ** What the generator yields *)

(** A traversal gives no token exactly when it starts at the end node. *)
Lemma extract_method_empty {str : StrLower} ix ed m sn en :
  tokens_by_start_pos ix !! startPosition m = Some sn ->
  tokens_by_end_pos ix !! endPosition m = Some en ->
  (∃ fuel, extract_method fuel ix ed m = Done []) ↔ id sn = id en.
Proof.
  intros Hsn Hen. unfold extract_method. rewrite Hsn. split.
  - intros [fuel Hrun].
    destruct (while_loop_done ix ed m en Hen _ _ _ _ Hrun)
      as (k & _ & Hreach & Hopen & Htokens).
    simpl in Htokens. apply (f_equal length) in Htokens.
    rewrite (chain_tokens_length ix ed en) in Htokens by done.
    simpl in Htokens. by subst k.
  - intros ->. exists 1%nat. by apply while_loop_exit.
Qed.

(** C10: the lists that [load_data_file] yields are the non-empty token
    lists of the traversals, in the order in which the method roots occur
    among the nodes of the record: the method roots are the nodes with the
    contents [METHOD] in that order; the yielded lists are the non-empty ones
    among the lists of the traversals that completed; when all traversals
    complete the generator ends after them; and a traversal gives the empty
    list, which is not yielded, exactly when its start node is its end
    node. *)
Theorem load_data_file_yields_nonempty_in_order {str : StrLower} (g : Graph) (fuel : nat) :
  let ix := build_index g in
  let ed := build_edges g in
  methods ix = List.filter is_method_root (node g) ∧
  (load_data_file fuel g).1 =
    List.filter nonempty
      (completed (map (extract_method fuel ix ed)
                      (List.filter is_method_root (node g)))) ∧
  (∀ ts, Forall2 (λ m t, extract_method fuel ix ed m = Done t)
                 (List.filter is_method_root (node g)) ts ->
         load_data_file fuel g = (List.filter nonempty ts, Finished)) ∧
  (∀ ys st, load_data_file fuel g = (ys, st) -> [] ∉ ys) ∧
  (∀ m sn en,
     tokens_by_start_pos ix !! startPosition m = Some sn ->
     tokens_by_end_pos ix !! endPosition m = Some en ->
     (∃ fuel', extract_method fuel' ix ed m = Done []) ↔ id sn = id en).
Proof.
  intros ix ed. split; [apply build_index_methods|].
  split; [|split; [|split]].
  - unfold load_data_file. by rewrite run_methods_completed, build_index_methods.
  - intros ts Hts. unfold load_data_file. rewrite build_index_methods.
    by apply run_methods_all_done.
  - intros ys st Hload.
    assert (Hys : ys = (load_data_file fuel g).1) by (by rewrite Hload).
    unfold load_data_file in Hys. rewrite run_methods_completed in Hys.
    subst ys. rewrite list_elem_of_In, filter_In. by intros [_ ?].
  - intros m sn en. apply extract_method_empty.
Qed.

Lemma load_data_file_yields_nonempty_in_order_witness :
  load_data_file (str := ascii_str) 4 Examples.g_linear
    = ([["public"; "int"; "foo"]; ["foo"]]%string, Finished).
Proof.
  destruct (load_data_file_yields_nonempty_in_order (str := ascii_str) Examples.g_linear 4)
    as (_ & _ & Hall & _).
  apply (Hall [["public"; "int"; "foo"]; []; ["foo"]]%string).
  repeat constructor.
Defined.

(** ** The tensoriser *)

Lemma mapM_ok {A B} (f : A -> result B) (h : A -> B) (l : list A) :
  Forall (λ x, f x = Ok (h x)) l -> mapM f l = Ok (h <$> l).
Proof.
  induction 1 as [|x l Hx _ IH]; [done|]. simpl. by rewrite Hx, IH.
Qed.

Lemma mapM_app {A B} (f : A -> result B) (l1 l2 : list A) ys1 ys2 :
  mapM f l1 = Ok ys1 -> mapM f l2 = Ok ys2 ->
  mapM f (l1 ++ l2) = Ok (ys1 ++ ys2).
Proof.
  revert ys1. induction l1 as [|x l1 IH]; intros ys1; simpl.
  - by intros [= <-].
  - destruct (f x) as [y|]; [|done]. simpl.
    destruct (mapM f l1) as [ys|]; [|done]. simpl.
    intros [= <-] H2. by rewrite (IH ys eq_refl H2).
Qed.

Section Tensorise.

Context (vocab : Vocabulary) (unk_id pad_id start_id end_id : nat).
Hypothesis Hres : has_reserved vocab unk_id pad_id start_id end_id.

Implicit Types (token_seq : list string) (i : Z).

Lemma get_id_or_unk_ok token :
  get_id_or_unk vocab token = Ok (id_or unk_id vocab token).
Proof.
  unfold get_id_or_unk, id_or. destruct (token_to_id vocab !! token); [done|].
  by rewrite (has_unk _ _ _ _ _ Hres).
Qed.

Lemma position_start token_seq :
  tensorise_position vocab token_seq 0 = Ok start_id.
Proof.
  unfold tensorise_position. simpl. rewrite get_id_or_unk_ok. unfold id_or.
  by rewrite (has_start _ _ _ _ _ Hres).
Qed.

Lemma position_token token_seq i :
  1 ≤ i ≤ len token_seq ->
  tensorise_position vocab token_seq i =
    Ok (id_or unk_id vocab (token_at token_seq i)).
Proof.
  intros Hi. unfold tensorise_position, getitem, token_at, len in *.
  destruct (Z.eqb_spec i 0); [lia|].
  destruct (Z.geb_spec (Z.of_nat (length token_seq)) i); [|lia].
  destruct (Z.ltb_spec (i - 1) 0); [lia|].
  destruct (Z.ltb_spec (i - 1) 0); [lia|].
  destruct (token_seq !! Z.to_nat (i - 1)) as [t|] eqn:Ht.
  - simpl. apply get_id_or_unk_ok.
  - apply lookup_ge_None in Ht. lia.
Qed.

Lemma position_end token_seq :
  tensorise_position vocab token_seq (len token_seq + 1) = Ok end_id.
Proof.
  unfold tensorise_position, len.
  destruct (Z.eqb_spec (Z.of_nat (length token_seq) + 1) 0); [lia|].
  destruct (Z.geb_spec (Z.of_nat (length token_seq))
                       (Z.of_nat (length token_seq) + 1)); [lia|].
  rewrite Z.eqb_refl, get_id_or_unk_ok. unfold id_or.
  by rewrite (has_end _ _ _ _ _ Hres).
Qed.

Lemma position_pad token_seq i :
  len token_seq + 1 < i ->
  tensorise_position vocab token_seq i = Ok pad_id.
Proof.
  intros Hi. unfold tensorise_position, len in *.
  destruct (Z.eqb_spec i 0); [lia|].
  destruct (Z.geb_spec (Z.of_nat (length token_seq)) i); [lia|].
  destruct (Z.eqb_spec i (Z.of_nat (length token_seq) + 1)); [lia|].
  rewrite get_id_or_unk_ok. unfold id_or.
  by rewrite (has_pad _ _ _ _ _ Hres).
Qed.

(** The ids of the [k] first tokens, as the positions [1..k] give them. *)
Lemma tokens_of_positions token_seq (k : nat) :
  (k ≤ length token_seq)%nat ->
  (λ i, id_or unk_id vocab (token_at token_seq i)) <$> seqZ 1 (Z.of_nat k) =
    id_or unk_id vocab <$> take k token_seq.
Proof.
  induction k as [|k IH]; intros Hk; [done|].
  rewrite seqZ_S, fmap_app, IH by lia.
  destruct (lookup_lt_is_Some_2 token_seq k ltac:(lia)) as [t Ht].
  rewrite (take_S_r _ _ t), fmap_app by done. simpl.
  unfold token_at. replace (Z.to_nat (1 + Z.of_nat k - 1)) with k by lia.
  by rewrite Ht.
Qed.

Lemma mapM_tokens token_seq (k : nat) :
  (k ≤ length token_seq)%nat ->
  mapM (tensorise_position vocab token_seq) (seqZ 1 (Z.of_nat k)) =
    Ok (id_or unk_id vocab <$> take k token_seq).
Proof.
  intros Hk. rewrite <- tokens_of_positions by done.
  apply mapM_ok, Forall_seqZ. intros i Hi. apply position_token.
  unfold len. lia.
Qed.

Lemma mapM_pads token_seq (a n : Z) :
  len token_seq + 1 < a ->
  mapM (tensorise_position vocab token_seq) (seqZ a n) =
    Ok (replicate (Z.to_nat n) pad_id).
Proof.
  intros Ha.
  rewrite (mapM_ok _ (λ _, pad_id)).
  - f_equal. apply list_eq. intros j.
    destruct (decide (j < Z.to_nat n)%nat) as [Hj|Hj].
    + rewrite list_lookup_fmap, lookup_seqZ_lt, lookup_replicate_2 by lia. done.
    + rewrite list_lookup_fmap, lookup_seqZ_ge by lia. simpl.
      symmetry. apply lookup_replicate_None. lia.
  - apply Forall_seqZ. intros i Hi. apply position_pad. lia.
Qed.

(** A sequence that leaves room for the end symbol. *)
Lemma tensorise_short (L : Z) token_seq :
  len token_seq < L - 1 ->
  tensorise_token_sequence vocab L token_seq =
    Ok (start_id :: (id_or unk_id vocab <$> token_seq)
          ++ end_id :: replicate (Z.to_nat (L - len token_seq - 2)) pad_id).
Proof.
  intros HL. unfold tensorise_token_sequence, range.
  set (n := len token_seq) in *.
  assert (Hn : n = Z.of_nat (length token_seq)) by done.
  replace L with (1 + (n + (1 + (L - n - 2)))) at 1 by lia.
  rewrite seqZ_app by lia. apply (mapM_app _ _ _ [start_id]).
  { rewrite seqZ_cons, seqZ_nil by lia. simpl. by rewrite position_start. }
  rewrite seqZ_app by lia. apply mapM_app.
  { rewrite Hn, mapM_tokens by lia. by rewrite firstn_all. }
  rewrite seqZ_app by lia. apply (mapM_app _ _ _ [end_id]).
  { rewrite seqZ_cons, seqZ_nil by lia. simpl.
    replace (0 + 1 + n) with (n + 1) by lia. by rewrite position_end. }
  apply mapM_pads. lia.
Qed.

(** A sequence that fills the positions after the start symbol. *)
Lemma tensorise_long (L : Z) token_seq :
  2 ≤ L -> L - 1 ≤ len token_seq ->
  tensorise_token_sequence vocab L token_seq =
    Ok (start_id :: (id_or unk_id vocab <$> take (Z.to_nat (L - 1)) token_seq)).
Proof.
  intros HL Hlen. unfold tensorise_token_sequence, range, len in *.
  replace L with (1 + Z.of_nat (Z.to_nat (L - 1))) at 1 by lia.
  rewrite seqZ_app by lia. apply (mapM_app _ _ _ [start_id]).
  { rewrite seqZ_cons, seqZ_nil by lia. simpl. by rewrite position_start. }
  apply mapM_tokens. lia.
Qed.

(** A length below 2. *)
Lemma tensorise_tiny (L : Z) token_seq :
  L < 2 ->
  tensorise_token_sequence vocab L token_seq =
    Ok (if L =? 1 then [start_id] else []).
Proof.
  intros HL. unfold tensorise_token_sequence, range.
  destruct (Z.eqb_spec L 1) as [->|Hne].
  - rewrite seqZ_cons, seqZ_nil by lia. simpl. by rewrite position_start.
  - by rewrite seqZ_nil by lia.
Qed.

End Tensorise.

(** ** The vocabulary *)

Lemma empty_vocabulary_wf : vocab_wf {| token_to_id := ∅; id_to_token := [] |}.
Proof. intros t i. simpl. by rewrite lookup_empty, lookup_nil. Qed.

(** [add_or_get_id] keeps the two directions of a vocabulary in agreement. *)
Lemma add_or_get_id_wf v token :
  vocab_wf v -> vocab_wf (add_or_get_id v token).1.
Proof.
  intros Hwf. unfold add_or_get_id.
  destruct (token_to_id v !! token) as [i0|] eqn:Htoken; [done|].
  intros t i. simpl. destruct (decide (token = t)) as [->|Hne].
  - rewrite lookup_insert_eq. split.
    + intros [= <-]. by rewrite lookup_app_r, Nat.sub_diag.
    + intros Hi. destruct (decide (i < length (id_to_token v))%nat) as [Hlt|Hge].
      * rewrite lookup_app_l in Hi by done. apply Hwf in Hi. congruence.
      * apply lookup_lt_Some in Hi. rewrite length_app in Hi. simpl in Hi.
        f_equal. lia.
  - rewrite lookup_insert_ne by done. rewrite (Hwf t i). split.
    + intros Hi. rewrite lookup_app_l; [done|]. by eapply lookup_lt_Some.
    + intros Hi. destruct (decide (i < length (id_to_token v))%nat) as [Hlt|Hge].
      * by rewrite lookup_app_l in Hi.
      * rewrite lookup_app_r in Hi by lia.
        destruct (i - length (id_to_token v))%nat; simpl in Hi; [congruence|].
        by rewrite lookup_nil in Hi.
Qed.

(** [add_or_get_id] keeps the ids of the tokens already present. *)
Lemma add_or_get_id_lookup v token t i :
  token_to_id v !! t = Some i ->
  token_to_id (add_or_get_id v token).1 !! t = Some i.
Proof.
  intros Ht. unfold add_or_get_id.
  destruct (token_to_id v !! token) eqn:Htoken; [done|]. simpl.
  rewrite lookup_insert_ne; [done|]. congruence.
Qed.

Lemma add_tokens_wf items v : vocab_wf v -> vocab_wf (add_tokens v items).
Proof.
  revert v. induction items as [|x items IH]; intros v Hwf; [done|].
  simpl. by apply IH, add_or_get_id_wf.
Qed.

Lemma add_tokens_lookup items v t i :
  token_to_id v !! t = Some i -> token_to_id (add_tokens v items) !! t = Some i.
Proof.
  revert v. induction items as [|x items IH]; intros v Ht; [done|].
  simpl. by apply IH, add_or_get_id_lookup.
Qed.

(** The tokens appended by [add_tokens] are among the items, at most one
    for each. *)
Lemma add_tokens_id_to_token items v :
  ∃ rest, id_to_token (add_tokens v items) = id_to_token v ++ rest ∧
          (length rest ≤ length items)%nat ∧
          ∀ t, t ∈ rest -> t ∈ items.*1.
Proof.
  revert v. induction items as [|x items IH]; intros v.
  - exists []. simpl. rewrite app_nil_r. split; [done|]. split; [done|].
    intros t Ht. by apply elem_of_nil in Ht.
  - change (add_tokens v (x :: items))
      with (add_tokens (add_or_get_id v x.1).1 items).
    destruct (IH (add_or_get_id v x.1).1) as (rest & Heq & Hlen & Hin).
    rewrite Heq. unfold add_or_get_id.
    destruct (token_to_id v !! x.1); simpl.
    + exists rest. split; [done|]. split; [lia|].
      intros t Ht. right. by apply Hin.
    + exists (x.1 :: rest). rewrite <- app_assoc. split; [done|].
      split; [simpl; lia|].
      intros t [->|Ht]%elem_of_cons; [left|right; by apply Hin].
Qed.

Lemma reserved_vocabulary_tokens :
  id_to_token reserved_vocabulary = [get_unk; get_pad; START_SYMBOL; END_SYMBOL].
Proof. reflexivity. Qed.

Lemma reserved_vocabulary_has_reserved : has_reserved reserved_vocabulary 0 1 2 3.
Proof. split; reflexivity. Qed.

Lemma reserved_vocabulary_wf : vocab_wf reserved_vocabulary.
Proof.
  unfold reserved_vocabulary, new_vocabulary.
  repeat apply add_or_get_id_wf. apply empty_vocabulary_wf.
Qed.

(** In a vocabulary whose directions agree, a token has the id of the end
    symbol only if it is the end symbol. *)
Lemma id_or_end_symbol v unk_id pad_id start_id end_id token :
  vocab_wf v ->
  has_reserved v unk_id pad_id start_id end_id ->
  id_or unk_id v token = end_id -> token = END_SYMBOL.
Proof.
  intros Hwf [Hunk _ _ Hend] Hid. unfold id_or in Hid.
  apply Hwf in Hend.
  destruct (token_to_id v !! token) as [i|] eqn:Htoken; simpl in Hid.
  - subst i. apply Hwf in Htoken. congruence.
  - subst unk_id. apply Hwf in Hunk. rewrite Hunk in Hend. done.
Qed.

(** ** Properties of [tensorise_token_sequence] *)

(** C2: with a vocabulary that contains the reserved symbols and a sequence
    of fewer than [L - 1] tokens, the tensoriser returns [L] ids: the start
    id at position 0, the ids of the tokens (the unknown id for a token the
    vocabulary does not have) in their order at positions [1..len(seq)], the
    end id at position [len(seq) + 1], and the pad id from there on. *)
Theorem tensorise_pads_short_sequence (vocab : Vocabulary)
    (unk_id pad_id start_id end_id : nat) (L : Z) (token_seq : list string) :
  has_reserved vocab unk_id pad_id start_id end_id ->
  len token_seq < L - 1 ->
  ∃ out,
    tensorise_token_sequence vocab L token_seq = Ok out ∧
    out = start_id :: (id_or unk_id vocab <$> token_seq)
            ++ end_id :: replicate (Z.to_nat (L - len token_seq - 2)) pad_id ∧
    len out = L ∧
    out !! 0%nat = Some start_id ∧
    (∀ (i : nat) token,
       token_seq !! i = Some token ->
       out !! S i = Some (id_or unk_id vocab token)) ∧
    out !! S (length token_seq) = Some end_id ∧
    (∀ i : nat,
       len token_seq + 2 ≤ Z.of_nat i < L -> out !! i = Some pad_id).
Proof.
  intros Hres HL. eexists. split; [by apply (tensorise_short _ _ _ _ _ Hres)|].
  split; [done|]. unfold len in *.
  split; [|split; [|split; [|split]]].
  - simpl. rewrite length_app, length_fmap. simpl. rewrite length_replicate. lia.
  - done.
  - intros i token Hi. simpl.
    rewrite lookup_app_l by (rewrite length_fmap; by eapply lookup_lt_Some).
    by rewrite list_lookup_fmap, Hi.
  - simpl. rewrite lookup_app_r by (by rewrite length_fmap).
    by rewrite length_fmap, Nat.sub_diag.
  - intros [|i] Hi; [lia|]. simpl.
    rewrite lookup_app_r by (rewrite length_fmap; lia).
    rewrite length_fmap.
    destruct (i - length token_seq)%nat as [|j] eqn:Hj; [lia|]. simpl.
    apply lookup_replicate_2. lia.
Qed.

Lemma tensorise_pads_short_sequence_witness :
  ∃ out,
    tensorise_token_sequence Examples.vocab_pif 6 ["public"; "int"; "foo"]%string
      = Ok out ∧ out = [2; 4; 5; 6; 3; 1]%nat.
Proof.
  destruct (tensorise_pads_short_sequence Examples.vocab_pif 0 1 2 3 6
              ["public"; "int"; "foo"]%string) as (out & Hout & Heq & _).
  - split; reflexivity.
  - by vm_compute.
  - exists out. split; [done|]. rewrite Heq. reflexivity.
Defined.

(** C3, as the code has it: with a vocabulary that contains the reserved
    symbols, [L ≥ 2] and a sequence of at least [L - 1] tokens, the
    tensoriser returns [L] ids, the start id followed by the ids of the
    [L - 1] first tokens in their order; the tokens from index [L - 1] on
    are dropped and no end symbol is appended. The id of the end symbol
    occurs in the output only for a token that is itself the end symbol:
    when none of the [L - 1] first tokens is, it occurs nowhere. *)
Theorem tensorise_truncates_long_sequence (vocab : Vocabulary)
    (unk_id pad_id start_id end_id : nat) (L : Z) (token_seq : list string) :
  has_reserved vocab unk_id pad_id start_id end_id ->
  vocab_wf vocab ->
  2 ≤ L ->
  L - 1 ≤ len token_seq ->
  ∃ out,
    tensorise_token_sequence vocab L token_seq = Ok out ∧
    out = start_id
            :: (id_or unk_id vocab <$> take (Z.to_nat (L - 1)) token_seq) ∧
    len out = L ∧
    (∀ i : nat,
       out !! i = Some end_id ->
       ∃ j, i = S j ∧ token_seq !! j = Some END_SYMBOL) ∧
    (END_SYMBOL ∉ take (Z.to_nat (L - 1)) token_seq -> end_id ∉ out).
Proof.
  intros Hres Hwf HL Hlen. eexists.
  split; [by apply (tensorise_long _ _ _ _ _ Hres)|].
  split; [done|].
  assert (Hstart : start_id ≠ end_id).
  { destruct Hres as [_ _ Hs He]. apply Hwf in Hs, He. intros ->.
    rewrite Hs in He. done. }
  assert (Hpos : ∀ i : nat,
     (start_id :: (id_or unk_id vocab <$> take (Z.to_nat (L - 1)) token_seq))
       !! i = Some end_id ->
     ∃ j, i = S j ∧ (j < Z.to_nat (L - 1))%nat ∧
          token_seq !! j = Some END_SYMBOL).
  { intros [|j]; simpl; [congruence|].
    rewrite list_lookup_fmap. intros Hj.
    destruct (take _ token_seq !! j) as [t|] eqn:Ht; [|done].
    simpl in Hj. injection Hj as Hj.
    apply (id_or_end_symbol _ _ _ _ _ _ Hwf Hres) in Hj. subst t.
    apply lookup_take_Some in Ht as [Ht Hlt]. eauto. }
  split; [|split].
  - unfold len in *. simpl. rewrite length_fmap, length_take. lia.
  - intros i Hi. destruct (Hpos i Hi) as (j & -> & _ & Hj). eauto.
  - intros Hnot [i Hi]%list_elem_of_lookup.
    destruct (Hpos i Hi) as (j & _ & Hlt & Hj).
    apply Hnot. apply list_elem_of_lookup. exists j.
    by rewrite lookup_take_lt.
Qed.

Lemma tensorise_truncates_long_sequence_witness :
  ∃ out,
    tensorise_token_sequence Examples.vocab_pif 3
        ["public"; "static"; "int"; "foo"]%string = Ok out ∧
    out = [2; 4; 0]%nat ∧ 3%nat ∉ out.
Proof.
  destruct (tensorise_truncates_long_sequence Examples.vocab_pif 0 1 2 3 3
              ["public"; "static"; "int"; "foo"]%string)
    as (out & Hout & Heq & _ & _ & Hnot).
  - split; reflexivity.
  - apply add_tokens_wf, reserved_vocabulary_wf.
  - lia.
  - by vm_compute.
  - exists out. split; [done|]. split; [by rewrite Heq|].
    apply Hnot. change (Z.to_nat (3 - 1)) with 2%nat. simpl.
    intros [H|[H|H]%elem_of_cons]%elem_of_cons; [done|done|].
    by apply elem_of_nil in H.
Defined.

(** C3, as stated, fails for a sequence that holds the end symbol as a
    token: the id of the end symbol is then in the output. *)
Lemma tensorise_keeps_end_symbol_token :
  has_reserved reserved_vocabulary 0 1 2 3 ∧
  tensorise_token_sequence reserved_vocabulary 2 [END_SYMBOL] = Ok [2; 3]%nat ∧
  3%nat ∈ [2; 3]%nat.
Proof.
  split; [apply reserved_vocabulary_has_reserved|].
  split; [reflexivity|]. apply elem_of_cons. right. by apply elem_of_cons; left.
Qed.

(** C8, as the code has it: the tensoriser does not check the length. With a
    vocabulary that contains the reserved symbols and [L < 2] it returns a
    list and raises nothing: the start id alone for [L = 1], and the empty
    list for [L ≤ 0]. *)
Theorem tensorise_accepts_length_below_two (vocab : Vocabulary)
    (unk_id pad_id start_id end_id : nat) (L : Z) (token_seq : list string) :
  has_reserved vocab unk_id pad_id start_id end_id ->
  L < 2 ->
  tensorise_token_sequence vocab L token_seq =
    Ok (if L =? 1 then [start_id] else []).
Proof. intros Hres HL. by apply (tensorise_tiny _ _ _ _ _ Hres). Qed.

Lemma tensorise_accepts_length_below_two_witness :
  tensorise_token_sequence Examples.vocab_pif 1 ["foo"%string] = Ok [2%nat] ∧
  tensorise_token_sequence Examples.vocab_pif (-3) ["foo"%string] = Ok [].
Proof.
  split.
  - apply (tensorise_accepts_length_below_two Examples.vocab_pif 0 1 2 3 1).
    + split; reflexivity.
    + lia.
  - apply (tensorise_accepts_length_below_two Examples.vocab_pif 0 1 2 3 (-3)).
    + split; reflexivity.
    + lia.
Defined.

(** C8, as stated, fails: with the length 1 the tensoriser returns the list
    of the start id, and no exception. *)
Lemma tensorise_length_one_returns :
  tensorise_token_sequence reserved_vocabulary 1 ["foo"%string] = Ok [2%nat] ∧
  ¬ ∃ e, tensorise_token_sequence reserved_vocabulary 1 ["foo"%string] = Err e.
Proof. split; [reflexivity|]. by intros [e He]. Qed.

(** ** The counter and the vocabulary builder *)

Lemma counter_incr_keys cnt token t :
  t ∈ (counter_incr cnt token).*1 -> t ∈ cnt.*1 ∨ t = token.
Proof.
  induction cnt as [|[t0 c] cnt IH]; simpl.
  - intros [->|H]%elem_of_cons; [by right|]. by apply elem_of_nil in H.
  - case_decide as Ht0; simpl.
    + intros [->|H]%elem_of_cons; left; [left|by right].
    + intros [->|H]%elem_of_cons; [left; left|].
      destruct (IH H) as [?|?]; [left; by right|by right].
Qed.

Lemma fold_counter_incr_keys token_seq cnt t :
  t ∈ (fold_left counter_incr token_seq cnt).*1 -> t ∈ cnt.*1 ∨ t ∈ token_seq.
Proof.
  revert cnt. induction token_seq as [|token token_seq IH]; intros cnt; simpl.
  - by left.
  - intros [[H| ->]%counter_incr_keys|H]%IH.
    + by left.
    + right. left.
    + right. by right.
Qed.

(** The keys of the counter are tokens of the sequences counted. *)
Lemma count_tokens_keys token_seqs cnt t :
  t ∈ (count_tokens cnt token_seqs).*1 ->
  t ∈ cnt.*1 ∨ ∃ token_seq, token_seq ∈ token_seqs ∧ t ∈ token_seq.
Proof.
  revert cnt. induction token_seqs as [|token_seq token_seqs IH]; intros cnt.
  - by left.
  - intros [[H|H]%fold_counter_incr_keys|(s & Hs & Ht)]%IH.
    + by left.
    + right. exists token_seq. split; [left|done].
    + right. exists s. split; [by right|done].
Qed.

Lemma count_tokens_app cnt l1 l2 :
  count_tokens cnt (l1 ++ l2) = count_tokens (count_tokens cnt l1) l2.
Proof. unfold count_tokens. by rewrite fold_left_app. Qed.

Lemma insert_by_count_perm x l : insert_by_count x l ≡ₚ x :: l.
Proof.
  induction l as [|y l IH]; simpl; [done|].
  destruct (y.2 <=? x.2); [done|]. rewrite IH. apply Permutation_swap.
Qed.

Lemma sorted_by_count_perm cnt : sorted_by_count cnt ≡ₚ cnt.
Proof.
  induction cnt as [|x cnt IH]; simpl; [done|].
  unfold sorted_by_count in *. simpl. by rewrite insert_by_count_perm, IH.
Qed.

(** [most_common n] gives at most [n] items, all of them of the counter. *)
Lemma most_common_length n cnt : len (most_common n cnt) ≤ Z.max 0 n.
Proof. unfold most_common, len. rewrite length_take. lia. Qed.

Lemma most_common_items n cnt x : x ∈ most_common n cnt -> x ∈ cnt.
Proof.
  unfold most_common. intros Hx.
  rewrite <- sorted_by_count_perm.
  rewrite <- (take_drop (Z.to_nat n) (sorted_by_count cnt)).
  apply elem_of_app. by left.
Qed.

(** The token sequences of the files, in the order in which they are read. *)
Lemma count_files_finished {str : StrLower} fuel data_files cnt :
  Forall (λ g, (load_data_file fuel g).2 = Finished) data_files ->
  count_files fuel data_files cnt =
    Return (count_tokens cnt
              (concat (map (λ g, (load_data_file fuel g).1) data_files))).
Proof.
  intros Hall. revert cnt.
  induction Hall as [|g data_files Hg _ IH]; intros cnt; [done|].
  simpl. destruct (load_data_file fuel g) as [token_seqs st].
  simpl in Hg. subst st. rewrite IH. simpl. by rewrite count_tokens_app.
Qed.

(** C6: when the files of the corpus are read to their end, the vocabulary
    that [build_vocab_from_data_dir] returns holds the four reserved
    symbols, with the ids 0 to 3, followed by at most [vocab_size] tokens,
    all of them tokens of the corpus; its size is at most [vocab_size + 4];
    the reserved symbols are there whatever the corpus, and they are all
    there is when the corpus gives no token sequence. *)
Theorem vocabulary_size_bounded {str : StrLower} (fuel : nat) (data_files : list Graph)
    (vocab_size : Z) :
  0 ≤ vocab_size ->
  Forall (λ g, (load_data_file fuel g).2 = Finished) data_files ->
  ∃ vocab rest,
    build_vocab_from_data_dir fuel data_files vocab_size = Return vocab ∧
    id_to_token vocab = [get_unk; get_pad; START_SYMBOL; END_SYMBOL] ++ rest ∧
    len rest ≤ vocab_size ∧
    (∀ t, t ∈ rest ->
       ∃ g token_seq, g ∈ data_files ∧
                      token_seq ∈ (load_data_file fuel g).1 ∧ t ∈ token_seq) ∧
    vocab_len vocab ≤ vocab_size + 4 ∧
    has_reserved vocab 0 1 2 3 ∧
    (concat (map (λ g, (load_data_file fuel g).1) data_files) = [] ->
     rest = []).
Proof.
  intros Hsize Hall. unfold build_vocab_from_data_dir.
  rewrite count_files_finished by done.
  set (token_seqs := concat (map (λ g, (load_data_file fuel g).1) data_files)).
  set (items := most_common vocab_size (count_tokens [] token_seqs)).
  destruct (add_tokens_id_to_token items reserved_vocabulary)
    as (rest & Heq & Hlen & Hin).
  rewrite reserved_vocabulary_tokens in Heq.
  pose proof (most_common_length vocab_size (count_tokens [] token_seqs)) as Hmc.
  fold items in Hmc. unfold len in Hmc.
  exists (add_tokens reserved_vocabulary items), rest.
  split; [done|]. split; [done|]. unfold vocab_len, len.
  split; [lia|]. split; [|split; [|split]].
  - intros t Ht. apply Hin in Ht.
    apply list_elem_of_fmap in Ht as (x & -> & Hx).
    apply most_common_items in Hx.
    assert (Hkey : x.1 ∈ (count_tokens [] token_seqs).*1)
      by (apply list_elem_of_fmap; eauto).
    apply count_tokens_keys in Hkey as [Hkey|(s & Hs & Ht)].
    { by apply elem_of_nil in Hkey. }
    unfold token_seqs in Hs.
    apply list_elem_of_In, in_concat in Hs as (ys & Hys & Hs).
    apply in_map_iff in Hys as (g & <- & Hg).
    exists g, s. split; [by apply list_elem_of_In|].
    split; [by apply list_elem_of_In|done].
  - rewrite Heq, length_app. simpl. lia.
  - destruct reserved_vocabulary_has_reserved as [Hu Hp Hs He].
    split; by apply add_tokens_lookup.
  - intros Hempty.
    subst items token_seqs. rewrite Hempty in Hlen.
    unfold most_common in Hlen. simpl in Hlen. rewrite take_nil in Hlen.
    destruct rest as [|t rest]; [done|]. simpl in Hlen. lia.
Qed.

Lemma vocabulary_size_bounded_witness :
  ∃ vocab,
    build_vocab_from_data_dir (str := ascii_str) 4 [Examples.g_linear; Examples.g_fork] 2
      = Return vocab ∧
    vocab_len vocab ≤ 2 + 4.
Proof.
  destruct (vocabulary_size_bounded (str := ascii_str) 4 [Examples.g_linear; Examples.g_fork] 2)
    as (vocab & rest & Hret & _ & _ & _ & Hlen & _).
  - lia.
  - repeat constructor.
  - by exists vocab.
Defined.

(** ** The minibatch iterator *)

Section Chunks.

Context {A : Type}.
Implicit Types (l c : list A) (cs : list (list A)).

(** The chunks put together give the list back. *)
Lemma chunks_concat (n : nat) l : (0 < n)%nat -> concat (chunks n l) = l.
Proof.
  funelim (chunks n l); intros Hn; simp chunks.
  - lia.
  - done.
  - cbn [concat]. rewrite H by lia. apply take_drop.
Qed.

(** All chunks have [n] items, except for a last one with fewer. *)
Lemma chunks_shape (n : nat) l :
  (0 < n)%nat ->
  ∃ full rest,
    chunks n l = full ++ rest ∧
    Forall (λ c, length c = n) full ∧
    (rest = [] ∨ ∃ c, rest = [c] ∧ (0 < length c < n)%nat).
Proof.
  funelim (chunks n l); intros Hn; simp chunks.
  - lia.
  - exists [], []. split; [done|]. split; [constructor|by left].
  - destruct (decide (S n ≤ length (x :: l))%nat) as [Hfull|Hshort].
    + destruct (H ltac:(lia)) as (full & rest & Heq & Hall & Hrest).
      exists (take (S n) (x :: l) :: full), rest. rewrite Heq.
      split; [done|]. split; [|done].
      constructor; [|done]. rewrite length_take. lia.
    + exists [], [x :: l]. rewrite take_ge, drop_ge by lia. simp chunks.
      split; [done|]. split; [constructor|].
      right. exists (x :: l). split; [done|]. simpl in *. lia.
Qed.

End Chunks.

Lemma emitted_keep_all batch_size cs : emitted batch_size false cs = cs.
Proof.
  induction cs as [|c cs IH]; simpl; [done|].
  by rewrite andb_false_r, IH.
Qed.

(** With [drop_remainder], the chunks of [batch_size] items are yielded and
    a shorter last one is not. *)
Lemma emitted_drop batch_size full rest :
  Forall (λ c, len c = batch_size) full ->
  (rest = [] ∨ ∃ c, rest = [c] ∧ len c < batch_size) ->
  emitted batch_size true (full ++ rest) = full.
Proof.
  intros Hfull Hrest. induction Hfull as [|c full Hc _ IH]; simpl.
  - destruct Hrest as [->|(c & -> & Hc)]; [done|]. simpl.
    by destruct (Z.ltb_spec (len c) batch_size); [|lia].
  - destruct (Z.ltb_spec (len c) batch_size); [lia|]. simpl. by rewrite IH.
Qed.

Lemma length_concat_full {A} (n : nat) (cs : list (list A)) :
  Forall (λ c, length c = n) cs -> length (concat cs) = (n * length cs)%nat.
Proof.
  induction 1 as [|c cs Hc _ IH]; simpl; [lia|].
  rewrite length_app, IH, Hc. lia.
Qed.

(** The rows at indices within the array. *)
Lemma take_rows_ok {A} (token_seqs : list A) (idxs : list Z) :
  Forall (λ i, 0 ≤ i < len token_seqs) idxs ->
  ∃ rows, take_rows token_seqs idxs = Ok rows ∧
          Forall2 (λ row i, token_seqs !! Z.to_nat i = Some row) rows idxs.
Proof.
  induction 1 as [|i idxs Hi _ (rows & Hrows & Hall)].
  - exists []. split; [done|constructor].
  - destruct (lookup_lt_is_Some_2 token_seqs (Z.to_nat i)) as [row Hrow].
    { unfold len in Hi. lia. }
    exists (row :: rows). unfold take_rows in *. simpl.
    unfold getitem at 1.
    destruct (Z.ltb_spec i 0); [lia|].
    destruct (Z.ltb_spec i 0); [lia|].
    rewrite Hrow. simpl. rewrite Hrows. simpl.
    split; [done|by constructor].
Qed.

Lemma take_rows_batches {A} (token_seqs : list A) (batches : list (list Z)) :
  Forall (λ i, 0 ≤ i < len token_seqs) (concat batches) ->
  ∃ rows, mapM (take_rows token_seqs) batches = Ok rows ∧
          Forall2 (Forall2 (λ row i, token_seqs !! Z.to_nat i = Some row))
                  rows batches.
Proof.
  induction batches as [|b batches IH]; simpl.
  - exists []. split; [done|constructor].
  - rewrite Forall_app. intros [Hb Hrest].
    destruct (take_rows_ok token_seqs b Hb) as (rb & Hrb & Hallb).
    destruct (IH Hrest) as (rows & Hrows & Hall).
    exists (rb :: rows). rewrite Hrb. simpl. rewrite Hrows. simpl.
    split; [done|by constructor].
Qed.

Lemma Forall2_concat_length {A B} (R : A -> B -> Prop) xss yss :
  Forall2 (Forall2 R) xss yss -> length (concat xss) = length (concat yss).
Proof.
  induction 1 as [|xs ys xss yss Hxy _ IH]; simpl; [done|].
  rewrite !length_app, IH. f_equal. by eapply Forall2_length.
Qed.

(** C7: for an array of [N] rows and a positive [batch_size], the chunks
    of row indices, before a short last one is dropped, put together are the
    indices [0..N-1], each exactly once: a permutation of them when
    [is_training] holds, and the indices in their order otherwise. The
    batches yielded hold the rows at the indices of the chunks yielded,
    which have no index twice; without [drop_remainder] all chunks are
    yielded; with it the chunks of [batch_size] indices are yielded and a
    shorter last one is not, and the rows yielded are [N - N mod batch_size]
    in number. *)
Theorem minibatches_partition_the_rows {A : Type} (shuffle : list Z -> list Z)
    (token_seqs : list A) (batch_size : Z) (is_training drop_remainder : bool) :
  (∀ l, shuffle l ≡ₚ l) ->
  0 < batch_size ->
  let N := len token_seqs in
  let indices := if is_training then shuffle (range N) else range N in
  ∃ (chunks_all batches_idx : list (list Z)) (batches : list (list A)),
    minibatch_indices shuffle N batch_size is_training false = Ok chunks_all ∧
    concat chunks_all = indices ∧
    indices ≡ₚ range N ∧
    (is_training = false -> concat chunks_all = range N) ∧
    NoDup (concat chunks_all) ∧
    minibatch_indices shuffle N batch_size is_training drop_remainder
      = Ok batches_idx ∧
    get_minibatch_iterator shuffle token_seqs batch_size is_training
                           drop_remainder = Ok batches ∧
    Forall2 (Forall2 (λ row i, token_seqs !! Z.to_nat i = Some row))
            batches batches_idx ∧
    NoDup (concat batches_idx) ∧
    (drop_remainder = false -> batches_idx = chunks_all) ∧
    (drop_remainder = true ->
       Forall (λ c, len c = batch_size) batches_idx ∧
       (chunks_all = batches_idx ∨
        ∃ c, chunks_all = batches_idx ++ [c] ∧ 0 < len c < batch_size) ∧
       concat batches_idx = take (Z.to_nat (N - N mod batch_size)) indices ∧
       len (concat batches) = N - N mod batch_size).
Proof.
  intros Hshuffle Hsize N indices.
  assert (Hperm : indices ≡ₚ range N).
  { unfold indices. by destruct is_training. }
  assert (Hnodup : NoDup indices).
  { rewrite Hperm. apply NoDup_seqZ. }
  assert (Hlen : length indices = length token_seqs).
  { rewrite Hperm. unfold range, N, len. rewrite length_seqZ. lia. }
  assert (Hbound : Forall (λ i, 0 ≤ i < len token_seqs) indices).
  { rewrite Hperm. apply Forall_seqZ. fold N. lia. }
  set (n := Z.to_nat batch_size).
  destruct (chunks_shape n indices ltac:(lia)) as (full & rest & Hcs & Hfull & Hrest).
  pose proof (chunks_concat n indices ltac:(lia)) as Hcat.
  rewrite Hcs, concat_app in Hcat.
  assert (Hfullz : Forall (λ c : list Z, len c = batch_size) full).
  { eapply Forall_impl; [exact Hfull|]. intros c Hc. simpl in Hc.
    unfold len. lia. }
  assert (Hrestz : rest = [] ∨ ∃ c : list Z, rest = [c] ∧ len c < batch_size).
  { destruct Hrest as [->|(c & -> & Hc)]; [by left|].
    right. exists c. split; [done|]. unfold len. lia. }
  assert (Hidx : ∀ d, minibatch_indices shuffle N batch_size is_training d
                      = Ok (if d then full else full ++ rest)).
  { intros d. unfold minibatch_indices, chunked. fold indices.
    destruct (Z.ltb_spec batch_size 0); [lia|]. simpl. fold n. rewrite Hcs.
    destruct d; [by rewrite emitted_drop|by rewrite emitted_keep_all]. }
  assert (Hcount : Z.of_nat (length (concat full)) = N - N mod batch_size).
  { pose proof (length_concat_full n full Hfull) as Hl.
    assert (Hr : (length (concat rest) < n)%nat).
    { destruct Hrest as [->|(c & -> & Hc)]; simpl; [lia|].
      rewrite length_app. simpl. lia. }
    assert (HN : N = batch_size * Z.of_nat (length full)
                     + Z.of_nat (length (concat rest))).
    { unfold N, len. rewrite <- Hlen, <- Hcat, length_app, Hl. lia. }
    rewrite <- (Z.mod_unique_pos N batch_size (Z.of_nat (length full))
               (Z.of_nat (length (concat rest)))) by lia.
    lia. }
  assert (Hrows : ∀ bs, bs = full ∨ bs = full ++ rest ->
            Forall (λ i, 0 ≤ i < len token_seqs) (concat bs)).
  { intros bs [->| ->].
    - rewrite <- Hcat in Hbound. by apply Forall_app in Hbound as [? _].
    - by rewrite concat_app, Hcat. }
  set (batches_idx := if drop_remainder then full else full ++ rest).
  destruct (take_rows_batches token_seqs batches_idx) as (batches & Hget & Hall).
  { apply Hrows. unfold batches_idx. destruct drop_remainder; auto. }
  exists (full ++ rest), batches_idx, batches.
  split; [apply (Hidx false)|]. rewrite concat_app, Hcat.
  split; [done|]. split; [done|].
  split; [intros ->; done|]. split; [done|].
  split; [apply Hidx|]. split.
  { unfold get_minibatch_iterator. fold N. by rewrite Hidx. }
  split; [done|]. split.
  { unfold batches_idx. destruct drop_remainder.
    - rewrite <- Hcat in Hnodup. by apply NoDup_app in Hnodup as [? _].
    - by rewrite concat_app, Hcat. }
  split; [by intros ->|].
  intros ->. unfold batches_idx in *. split; [done|]. split; [|split].
  - destruct Hrest as [->|(c & -> & Hc)]; [left; by rewrite app_nil_r|].
    right. exists c. split; [done|]. unfold len. lia.
  - rewrite <- Hcount, Nat2Z.id, <- Hcat. by rewrite take_app_length.
  - unfold len. by rewrite (Forall2_concat_length _ _ _ Hall).
Qed.

Lemma minibatches_partition_the_rows_witness :
  ∃ batches,
    get_minibatch_iterator (@rev Z) [[10]; [11]; [12]; [13]; [14]]%nat 2
                           true true = Ok batches ∧
    len (concat batches) = 5 - 5 mod 2.
Proof.
  destruct (minibatches_partition_the_rows (@rev Z)
              [[10]; [11]; [12]; [13]; [14]]%nat 2 true true)
    as (chunks_all & batches_idx & batches & _ & _ & _ & _ & _ & _ & Hit
        & _ & _ & _ & Hdrop).
  - intros l. symmetry. apply Permutation_rev.
  - lia.
  - exists batches. split; [exact Hit|].
    destruct (Hdrop eq_refl) as (_ & _ & _ & Hcount). exact Hcount.
Defined.

(** The batches of the example: the rows in the order of the shuffled
    indices, two by two, without the row that is left. *)
Example minibatches_of_five_rows :
  get_minibatch_iterator (@rev Z) [[10]; [11]; [12]; [13]; [14]]%nat 2 true true
    = Ok [[[14]; [13]]; [[12]; [11]]]%nat ∧
  get_minibatch_iterator (@rev Z) [[10]; [11]; [12]; [13]; [14]]%nat 2 false false
    = Ok [[[10]; [11]]; [[12]; [13]]; [[14]]]%nat.
Proof. split; reflexivity. Qed.

(** ** Further properties of [load_data_file] *)

Section IndexLookup.

Context (keep : FeatureNode -> bool) (key : FeatureNode -> Z).

Lemma last_with_snoc k ns n :
  last_with keep key k (ns ++ [n]) =
    if keep n && bool_decide (key n = k) then Some n
    else last_with keep key k ns.
Proof.
  unfold last_with. rewrite List.filter_app. simpl.
  destruct (keep n && bool_decide (key n = k)).
  - by rewrite last_snoc.
  - by rewrite app_nil_r.
Qed.

Lemma last_with_elem k ns n :
  last_with keep key k ns = Some n -> n ∈ ns ∧ keep n = true ∧ key n = k.
Proof.
  unfold last_with. intros Hlast.
  assert (Hin : In n (List.filter (λ n, keep n && bool_decide (key n = k)) ns)).
  { apply list_elem_of_In, list_elem_of_lookup.
    rewrite last_lookup in Hlast. eauto. }
  apply filter_In in Hin as [Hin Hk]. apply andb_true_iff in Hk as [Hkeep Hk].
  apply bool_decide_eq_true in Hk. by rewrite list_elem_of_In.
Qed.

End IndexLookup.

Lemma fold_index_node_snoc ns n ix :
  fold_left index_node (ns ++ [n]) ix = index_node (fold_left index_node ns ix) n.
Proof. by rewrite fold_left_app. Qed.

(** The dictionary of ids holds the last node with the id. *)
Lemma build_index_nodes_dict (g : Graph) (k : Z) :
  nodes_dict (build_index g) !! k = last_with (λ _, true) id k (node g).
Proof.
  unfold build_index. induction (node g) as [|n ns IH] using rev_ind.
  - simpl. by rewrite lookup_empty.
  - rewrite fold_index_node_snoc, last_with_snoc. simpl.
    case_bool_decide as Hk.
    + subst k. by rewrite lookup_insert_eq.
    + by rewrite lookup_insert_ne.
Qed.

(** X1: each of the three dictionaries of the first loop holds, for a key,
    the last node of the record with that key (the last token node, for the
    two dictionaries of positions), and nothing when there is none: a later
    node with the same id or position replaces an earlier one. *)
Theorem build_index_last_wins (g : Graph) (k : Z) :
  nodes_dict (build_index g) !! k = last_with (λ _, true) id k (node g) ∧
  tokens_by_start_pos (build_index g) !! k =
    last_with (λ n, is_token_type (type n)) startPosition k (node g) ∧
  tokens_by_end_pos (build_index g) !! k =
    last_with (λ n, is_token_type (type n)) endPosition k (node g).
Proof.
  unfold build_index. induction (node g) as [|n ns IH] using rev_ind.
  - simpl. by rewrite !lookup_empty.
  - destruct IH as (IHn & IHs & IHe).
    rewrite fold_index_node_snoc, !last_with_snoc. simpl.
    split; [|split].
    + case_bool_decide as Hk.
      * subst k. by rewrite lookup_insert_eq.
      * by rewrite lookup_insert_ne.
    + destruct (is_token_type (type n)); simpl; [|done].
      case_bool_decide as Hk.
      * subst k. by rewrite lookup_insert_eq.
      * by rewrite lookup_insert_ne.
    + destruct (is_token_type (type n)); simpl; [|done].
      case_bool_decide as Hk.
      * subst k. by rewrite lookup_insert_eq.
      * by rewrite lookup_insert_ne.
Qed.

(** The nodes of the dictionary of ids are nodes of the record. *)
Lemma nodes_dict_elem g k n :
  nodes_dict (build_index g) !! k = Some n -> n ∈ node g ∧ id n = k.
Proof.
  rewrite build_index_nodes_dict.
  intros H. by apply last_with_elem in H as (? & _ & ?).
Qed.

(** X2: the edge index groups the edges by their source: the list kept for
    a source is the list of all edges of the record that leave it, in the
    order of the record, and a source is a key exactly when it has an
    edge. *)
Theorem edges_dict_groups_by_source (g : Graph) (src : Z)
    (es : list FeatureEdge) :
  (build_edges g !! src = Some es ↔ es ≠ [] ∧ es = out_edges g src) ∧
  (build_edges g !! src = None ↔ ∀ e, e ∈ edge g -> sourceId e ≠ src).
Proof.
  rewrite build_edges_lookup. unfold out_edges. split.
  - destruct (filter _ (edge g)) as [|e l] eqn:Hout.
    + split; [done|]. by intros [? ->].
    + split; [by intros [= <-]|]. by intros [_ ->].
  - destruct (filter _ (edge g)) as [|e l] eqn:Hout.
    + split; [|done]. intros _ e He Hsrc.
      assert (Hin : e ∈ filter (λ e, sourceId e = src) (edge g))
        by (by apply list_elem_of_filter).
      rewrite Hout in Hin. by apply elem_of_nil in Hin.
    + split; [done|]. intros Hnone.
      assert (Hin : e ∈ filter (λ e, sourceId e = src) (edge g))
        by (rewrite Hout; left).
      apply list_elem_of_filter in Hin as [Hsrc Hin]. by destruct (Hnone e).
Qed.

(** What a traversal that completed has done. *)
Lemma extract_method_done_inv {str : StrLower} fuel ix ed m tokens :
  extract_method fuel ix ed m = Done tokens ->
  ∃ sn en k,
    tokens_by_start_pos ix !! startPosition m = Some sn ∧
    tokens_by_end_pos ix !! endPosition m = Some en ∧
    (k < fuel)%nat ∧
    chain ed (id sn) k = id en ∧
    chain_open ix ed (id sn) (id en) k ∧
    tokens = chain_tokens ix ed (id sn) k.
Proof.
  unfold extract_method.
  destruct (tokens_by_start_pos ix !! startPosition m) as [sn|] eqn:Hsn; [|done].
  destruct (tokens_by_end_pos ix !! endPosition m) as [en|] eqn:Hen.
  - intros Hrun.
    destruct (while_loop_done ix ed m en Hen _ _ _ _ Hrun)
      as (k & Hk & Hreach & Hopen & ->).
    by exists sn, en, k.
  - destruct fuel; simpl; [done|]. by rewrite Hen.
Qed.

Lemma chain_tokens_lookup {str : StrLower} ix ed en s k j :
  chain_open ix ed s en k -> (j < k)%nat ->
  ∃ n, nodes_dict ix !! chain ed s j = Some n ∧
       chain_tokens ix ed s k !! j = Some (lower (contents n)).
Proof.
  revert s j. induction k as [|k IH]; intros s j Hopen Hj; [lia|].
  destruct (Hopen 0%nat ltac:(lia)) as [_ [n Hn]]. simpl in Hn.
  simpl. rewrite Hn. destruct j as [|j]; simpl.
  - exists n. by rewrite Hn.
  - apply IH; [|lia]. intros i Hi. apply (Hopen (S i)). lia.
Qed.

(** X4: a traversal that completes has followed the chain of next-token
    edges from the start node to its first arrival at the end node, and its
    token list holds the lowercased contents of the nodes before that
    arrival, in the order of the chain: the contents of the end node are not
    part of it. *)
Theorem completed_traversal_follows_chain {str : StrLower} (g : Graph) (fuel : nat)
    (m : FeatureNode) (tokens : list string) :
  let ix := build_index g in
  let ed := build_edges g in
  extract_method fuel ix ed m = Done tokens ->
  ∃ sn en,
    tokens_by_start_pos ix !! startPosition m = Some sn ∧
    tokens_by_end_pos ix !! endPosition m = Some en ∧
    chain ed (id sn) (length tokens) = id en ∧
    (length tokens < fuel)%nat ∧
    ∀ j, (j < length tokens)%nat ->
      chain ed (id sn) j ≠ id en ∧
      ∃ n, n ∈ node g ∧ id n = chain ed (id sn) j ∧
           tokens !! j = Some (lower (contents n)).
Proof.
  intros ix ed Hdone.
  destruct (extract_method_done_inv _ _ _ _ _ Hdone)
    as (sn & en & k & Hsn & Hen & Hk & Hreach & Hopen & ->).
  rewrite (chain_tokens_length ix ed en) by done.
  exists sn, en. split; [done|]. split; [done|]. split; [done|].
  split; [done|]. intros j Hj. split; [by apply Hopen|].
  destruct (chain_tokens_lookup ix ed (id en) (id sn) k j Hopen Hj)
    as (n & Hn & Htok).
  exists n. apply nodes_dict_elem in Hn as [Hin Hid]. by rewrite Htok.
Qed.

Lemma completed_traversal_follows_chain_witness :
  ∃ sn en,
    tokens_by_start_pos (build_index Examples.g_linear) !! 0 = Some sn ∧
    tokens_by_end_pos (build_index Examples.g_linear) !! 40 = Some en ∧
    chain (build_edges Examples.g_linear) (id sn) 3 = id en.
Proof.
  destruct (completed_traversal_follows_chain (str := ascii_str) Examples.g_linear 4
              (Examples.method_node 0 0 40) ["public"; "int"; "foo"]%string)
    as (sn & en & Hsn & Hen & Hreach & _).
  - reflexivity.
  - by exists sn, en.
Defined.

Lemma lower_ascii_idempotent c : lower_ascii (lower_ascii c) = lower_ascii c.
Proof. by destruct c as [[] [] [] [] [] [] [] []]. Qed.

(** Lowercasing ASCII text twice is lowercasing it once. *)
Lemma ascii_lower_idempotent s : ascii_lower (ascii_lower s) = ascii_lower s.
Proof.
  induction s as [|c s IH]; [done|]. simpl.
  by rewrite lower_ascii_idempotent, IH.
Qed.

(** The lowercasing of ASCII text gives no reserved symbol. *)
Lemma ascii_lower_avoids_reserved : lower_avoids_reserved (str := ascii_str).
Proof.
  intros s Hin.
  assert (Hfix : ∀ r, r ∈ reserved_symbols -> ascii_lower r ≠ r).
  { intros r Hr. unfold reserved_symbols in Hr.
    repeat (apply elem_of_cons in Hr as [->|Hr]; [by vm_compute|]).
    by apply elem_of_nil in Hr. }
  apply (Hfix _ Hin). apply ascii_lower_idempotent.
Qed.

Lemma completed_elem rs tokens : tokens ∈ completed rs -> Done tokens ∈ rs.
Proof.
  induction rs as [|r rs IH]; simpl.
  - intros H. by apply elem_of_nil in H.
  - destruct r as [t| |]; try (intros H; by apply elem_of_nil in H).
    intros [->|H]%elem_of_cons; [left|right; by apply IH].
Qed.

(** The lists yielded are token lists of traversals that completed. *)
Lemma load_data_file_yield_inv {str : StrLower} g fuel token_seq :
  token_seq ∈ (load_data_file fuel g).1 ->
  token_seq ≠ [] ∧
  ∃ m, m ∈ node g ∧ contents m = "METHOD"%string ∧
       extract_method fuel (build_index g) (build_edges g) m = Done token_seq.
Proof.
  unfold load_data_file. rewrite run_methods_completed, build_index_methods.
  rewrite list_elem_of_In, filter_In, <- list_elem_of_In.
  intros [Hin Hne]. split; [by destruct token_seq|].
  apply completed_elem, list_elem_of_In, in_map_iff in Hin as (m & Hm & Hin).
  apply filter_In in Hin as [Hin Hroot]. exists m.
  rewrite list_elem_of_In. split; [done|]. split; [|done].
  by apply bool_decide_eq_true in Hroot.
Qed.

(** The tokens yielded are lowercased contents of nodes of the record. *)
Lemma load_data_file_token_node {str : StrLower} (g : Graph) (fuel : nat)
    (token_seq : list string) (token : string) :
  token_seq ∈ (load_data_file fuel g).1 ->
  token ∈ token_seq ->
  ∃ n, n ∈ node g ∧ token = lower (contents n).
Proof.
  intros Hseq Htoken.
  apply load_data_file_yield_inv in Hseq as (_ & m & _ & _ & Hdone).
  destruct (extract_method_done_inv _ _ _ _ _ Hdone)
    as (sn & en & k & _ & _ & _ & _ & Hopen & ->).
  apply list_elem_of_lookup in Htoken as [j Hj].
  pose proof (lookup_lt_Some _ _ _ Hj) as Hlt.
  rewrite (chain_tokens_length _ _ en) in Hlt by done.
  destruct (chain_tokens_lookup _ _ (id en) (id sn) k j Hopen Hlt)
    as (n & Hn & Htok).
  exists n. apply nodes_dict_elem in Hn as [Hin _]. split; [done|]. congruence.
Qed.

(** X3: every token that [load_data_file] yields is [str.lower] of the
    contents of a node of the record; hence, [str.lower] giving no reserved
    symbol, no token yielded is one of the four reserved symbols of the
    vocabulary. *)
Theorem yielded_tokens_are_lowercase {str : StrLower} (g : Graph) (fuel : nat)
    (token_seq : list string) (token : string) :
  lower_avoids_reserved ->
  token_seq ∈ (load_data_file fuel g).1 ->
  token ∈ token_seq ->
  (∃ n, n ∈ node g ∧ token = lower (contents n)) ∧
  token ∉ reserved_symbols.
Proof.
  intros Hlower Hseq Htoken.
  destruct (load_data_file_token_node g fuel token_seq token Hseq Htoken)
    as (n & Hin & ->).
  split; [by exists n|apply Hlower].
Qed.

Lemma yielded_tokens_are_lowercase_witness :
  "public"%string ∉ reserved_symbols.
Proof.
  apply (yielded_tokens_are_lowercase (str := ascii_str) Examples.g_linear 4
           ["public"; "int"; "foo"]%string "public"%string).
  - exact ascii_lower_avoids_reserved.
  - vm_compute. left.
  - left.
Defined.

Lemma while_loop_stable {str : StrLower} fuel d ix ed m nid tokens :
  (∀ nid' tokens', while_loop fuel ix ed m nid tokens ≠ Running nid' tokens') ->
  while_loop (fuel + d) ix ed m nid tokens = while_loop fuel ix ed m nid tokens.
Proof.
  revert nid tokens. induction fuel as [|fuel IH]; intros nid tokens Hend.
  - by destruct (Hend nid tokens).
  - simpl in *. destruct (tokens_by_end_pos ix !! endPosition m); [|done].
    case_bool_decide; [done|].
    destruct (nodes_dict ix !! nid); [|done]. by apply IH.
Qed.

Lemma extract_method_stable {str : StrLower} fuel d ix ed m :
  (∀ nid tokens, extract_method fuel ix ed m ≠ Running nid tokens) ->
  extract_method (fuel + d) ix ed m = extract_method fuel ix ed m.
Proof.
  unfold extract_method.
  destruct (tokens_by_start_pos ix !! startPosition m); [|done].
  apply while_loop_stable.
Qed.

Lemma run_methods_stable {str : StrLower} fuel d ix ed ms :
  (run_methods fuel ix ed ms).2 ≠ OutOfFuel ->
  run_methods (fuel + d) ix ed ms = run_methods fuel ix ed ms.
Proof.
  induction ms as [|m ms IH]; simpl; [done|].
  destruct (extract_method fuel ix ed m) as [t|e|nid t] eqn:Hm.
  - rewrite extract_method_stable, Hm by (rewrite Hm; done).
    destruct (run_methods fuel ix ed ms) as [ys st]. simpl in *.
    intros Hst. by rewrite IH.
  - by rewrite extract_method_stable, Hm by (rewrite Hm; done).
  - done.
Qed.

(** A bound on the iterations that lets the generator end, by the end of
    its loop or by an exception, can be raised without changing what is
    yielded and how the generator ends: the result is that of the unbounded
    run. *)
Theorem load_data_file_result_is_stable {str : StrLower} (g : Graph) (fuel d : nat) :
  (load_data_file fuel g).2 ≠ OutOfFuel ->
  load_data_file (fuel + d) g = load_data_file fuel g.
Proof. apply run_methods_stable. Qed.

Lemma load_data_file_result_is_stable_witness :
  load_data_file (str := ascii_str) (4 + 100) Examples.g_linear
    = load_data_file (str := ascii_str) 4 Examples.g_linear.
Proof.
  apply (load_data_file_result_is_stable (str := ascii_str) Examples.g_linear 4 100).
  by vm_compute.
Defined.

(** X6: [load_data_file] yields at most one list for each node with the
    contents [METHOD]; for a record without such a node it yields nothing and
    ends, whatever the tokens and edges of the record. *)
Theorem yields_at_most_one_list_per_method {str : StrLower} (g : Graph) (fuel : nat) :
  (length (load_data_file fuel g).1
     ≤ length (List.filter is_method_root (node g)))%nat ∧
  ((∀ n, n ∈ node g -> contents n ≠ "METHOD"%string) ->
   load_data_file fuel g = ([], Finished)).
Proof.
  split.
  - unfold load_data_file. rewrite run_methods_completed, build_index_methods.
    etrans; [apply filter_length_le|].
    generalize (List.filter is_method_root (node g)). intros ms.
    induction ms as [|m ms IH]; simpl; [done|].
    destruct (extract_method fuel _ _ m); simpl; lia.
  - intros Hnone. unfold load_data_file. rewrite build_index_methods.
    assert (Hnil : List.filter is_method_root (node g) = []).
    { induction (node g) as [|n ns IH]; [done|]. simpl.
      unfold is_method_root at 1. rewrite bool_decide_eq_false_2.
      - apply IH. intros n' Hn'. apply Hnone. by right.
      - apply Hnone. left. }
    by rewrite Hnil.
Qed.

Lemma yields_at_most_one_list_per_method_witness :
  load_data_file (str := ascii_str) 0 (mkGraph [mkNode 1 TOKEN "A" 0 10] [Examples.next 1 1])
    = ([], Finished).
Proof.
  apply (yields_at_most_one_list_per_method (str := ascii_str)
           (mkGraph [mkNode 1 TOKEN "A" 0 10] [Examples.next 1 1]) 0).
  intros n [->|H]%elem_of_cons; [done|]. by apply elem_of_nil in H.
Defined.

(** ** [get_data_files_from_directory] *)

Lemma string_compare_trans (a b c : string) :
  String.compare a b ≠ Gt -> String.compare b c ≠ Gt ->
  String.compare a c ≠ Gt.
Proof.
  revert b c. induction a as [|x a IH]; intros [|y b] [|z c]; simpl; try done.
  unfold Ascii.compare.
  destruct (N.compare_spec (N_of_ascii x) (N_of_ascii y)) as [Hxy|Hxy|Hxy],
           (N.compare_spec (N_of_ascii y) (N_of_ascii z)) as [Hyz|Hyz|Hyz],
           (N.compare_spec (N_of_ascii x) (N_of_ascii z)) as [Hxz|Hxz|Hxz];
    try done; try lia.
  apply IH.
Qed.

Lemma path_le_trans p q r : path_le p q -> path_le q r -> path_le p r.
Proof.
  unfold path_le, String.leb. intros Hpq Hqr.
  pose proof (string_compare_trans p q r) as Ht.
  destruct (String.compare p q), (String.compare q r), (String.compare p r);
    try done; by destruct Ht.
Qed.

Lemma insert_path_perm p l : insert_path p l ≡ₚ p :: l.
Proof.
  induction l as [|q l IH]; simpl; [done|].
  destruct (String.leb p q); [done|]. rewrite IH. apply Permutation_swap.
Qed.

Lemma sorted_paths_perm files : sorted_paths files ≡ₚ files.
Proof.
  induction files as [|p files IH]; [done|].
  unfold sorted_paths in *. simpl. by rewrite insert_path_perm, IH.
Qed.

Lemma insert_path_sorted p l :
  StronglySorted path_le l -> StronglySorted path_le (insert_path p l).
Proof.
  induction 1 as [|q l Hl IH Hq]; simpl.
  - by repeat constructor.
  - destruct (String.leb p q) eqn:Hpq.
    + constructor; [by constructor|]. constructor; [done|].
      eapply Forall_impl; [exact Hq|]. intros r Hr.
      by apply (path_le_trans p q r).
    + constructor; [done|]. rewrite insert_path_perm. constructor; [|done].
      destruct (String.leb_total p q) as [H|H]; [congruence|done].
Qed.

Lemma sorted_paths_sorted files : StronglySorted path_le (sorted_paths files).
Proof.
  induction files as [|p files IH]; [constructor|].
  unfold sorted_paths in *. simpl. by apply insert_path_sorted.
Qed.

Lemma slice_to_take {A} (l : list A) (n : Z) :
  slice_to l n =
    take (Z.to_nat (if n <? 0 then Z.max 0 (len l + n) else n)) l.
Proof.
  unfold slice_to. destruct (n <? 0); [|done]. f_equal. lia.
Qed.

(** X7: without a limit, and also with the limit 0, the paths are returned
    as they were found. With another limit [n] the result is a prefix of the
    paths in ascending order: the [n] first ones ([n > 0], all of them when
    there are fewer) or all but the [-n] last ones ([n < 0]); it is sorted,
    has no path that was not found, and every path left out is at least as
    large as every path kept. *)
Theorem data_files_are_sorted_prefix (files : list string)
    (max_num_files : option Z) :
  ((max_num_files = None ∨ max_num_files = Some 0) ->
   get_data_files_from_directory files max_num_files = files) ∧
  (∀ n, max_num_files = Some n -> n ≠ 0 ->
     let kept := get_data_files_from_directory files max_num_files in
     ∃ dropped,
       kept ++ dropped = sorted_paths files ∧
       kept ++ dropped ≡ₚ files ∧
       StronglySorted path_le kept ∧
       (∀ p q, p ∈ kept -> q ∈ dropped -> path_le p q) ∧
       len kept = (if n <? 0 then Z.max 0 (len files + n)
                   else Z.min n (len files))).
Proof.
  split.
  - by intros [->| ->].
  - intros n -> Hn. simpl. destruct (Z.eqb_spec n 0); [done|].
    rewrite slice_to_take.
    set (k := Z.to_nat (if n <? 0 then Z.max 0 (len (sorted_paths files) + n)
                        else n)).
    pose proof (sorted_paths_sorted files) as Hsorted.
    pose proof (sorted_paths_perm files) as Hperm.
    rewrite <- (take_drop k (sorted_paths files)) in Hsorted.
    exists (drop k (sorted_paths files)).
    split; [apply take_drop|]. split; [by rewrite take_drop|].
    split; [by apply StronglySorted_app_1_l in Hsorted|].
    split.
    + intros p q Hp Hq.
      by apply (StronglySorted_app_1_elem_of _ _ _ _ _ Hsorted).
    + assert (Hlen : length (sorted_paths files) = length files)
        by (by rewrite Hperm).
      unfold len, k. rewrite length_take. unfold len. rewrite Hlen.
      destruct (Z.ltb_spec n 0); lia.
Qed.

Lemma data_files_are_sorted_prefix_witness :
  get_data_files_from_directory ["b/2.proto"; "a/9.proto"; "a/1.proto"]%string
                                (Some 2)
    = ["a/1.proto"; "a/9.proto"]%string ∧
  get_data_files_from_directory ["b/2.proto"; "a/9.proto"; "a/1.proto"]%string
                                (Some 0)
    = ["b/2.proto"; "a/9.proto"; "a/1.proto"]%string.
Proof.
  destruct (data_files_are_sorted_prefix
              ["b/2.proto"; "a/9.proto"; "a/1.proto"]%string (Some 2))
    as [_ Hcap].
  destruct (data_files_are_sorted_prefix
              ["b/2.proto"; "a/9.proto"; "a/1.proto"]%string (Some 0))
    as [Hall _].
  split; [|apply Hall; by right].
  destruct (Hcap 2 eq_refl ltac:(lia)) as (dropped & Heq & _).
  reflexivity.
Defined.

(** ** The counter of [build_vocab_from_data_dir] *)

Lemma counter_get_incr cnt token t :
  counter_get (counter_incr cnt token) t =
    counter_get cnt t + (if decide (token = t) then 1 else 0).
Proof.
  induction cnt as [|[t0 c] cnt IH]; simpl.
  - repeat case_decide; done.
  - destruct (decide (t0 = token)) as [->|Hne]; simpl.
    + repeat case_decide; try done; lia.
    + rewrite IH. repeat case_decide; try done; try lia. congruence.
Qed.

Lemma occurrences_cons token t tokens :
  occurrences t (token :: tokens) =
    (if decide (token = t) then 1 else 0) + occurrences t tokens.
Proof.
  unfold occurrences, len. simpl.
  case_bool_decide; case_decide; try done; simpl; lia.
Qed.

Lemma occurrences_app t l1 l2 :
  occurrences t (l1 ++ l2) = occurrences t l1 + occurrences t l2.
Proof.
  unfold occurrences, len. rewrite List.filter_app, length_app. lia.
Qed.

Lemma occurrences_pos t tokens : 0 < occurrences t tokens ↔ t ∈ tokens.
Proof.
  induction tokens as [|token tokens IH].
  - split; [by unfold occurrences, len; simpl; lia|].
    intros H. by apply elem_of_nil in H.
  - rewrite occurrences_cons, elem_of_cons.
    assert (0 ≤ occurrences t tokens) by (unfold occurrences, len; lia).
    case_decide as Heq.
    + split; [by left|lia].
    + split; [intros; right; apply IH; lia|].
      intros [->|H']; [done|]. apply IH in H'. lia.
Qed.

Lemma counter_get_fold token_seq cnt t :
  counter_get (fold_left counter_incr token_seq cnt) t =
    counter_get cnt t + occurrences t token_seq.
Proof.
  revert cnt. induction token_seq as [|token token_seq IH]; intros cnt; simpl.
  - unfold occurrences, len. simpl. lia.
  - rewrite IH, counter_get_incr, occurrences_cons. lia.
Qed.

(** The counter holds, for every token, the number of its occurrences. *)
Lemma counter_get_count_tokens token_seqs cnt t :
  counter_get (count_tokens cnt token_seqs) t =
    counter_get cnt t + occurrences t (concat token_seqs).
Proof.
  revert cnt. induction token_seqs as [|s token_seqs IH]; intros cnt.
  - simpl. unfold occurrences, len. simpl. lia.
  - change (count_tokens cnt (s :: token_seqs))
      with (count_tokens (fold_left counter_incr s cnt) token_seqs).
    rewrite IH, counter_get_fold. simpl. rewrite occurrences_app. lia.
Qed.

Lemma counter_get_absent cnt t : t ∉ cnt.*1 -> counter_get cnt t = 0.
Proof.
  induction cnt as [|[t0 c] cnt IH]; simpl; [done|].
  rewrite not_elem_of_cons. intros [Hne Hnot].
  rewrite decide_False by done. by apply IH.
Qed.

Lemma counter_get_elem cnt t c :
  NoDup cnt.*1 -> (t, c) ∈ cnt -> counter_get cnt t = c.
Proof.
  induction cnt as [|[t0 c0] cnt IH]; simpl.
  - intros _ H. by apply elem_of_nil in H.
  - rewrite NoDup_cons. intros [Hnot Hnd] [Heq|Hin]%elem_of_cons.
    + injection Heq as -> ->. by rewrite decide_True.
    + rewrite decide_False; [by apply IH|].
      intros ->. apply Hnot. apply list_elem_of_fmap. by exists (t, c).
Qed.

Lemma counter_incr_NoDup cnt token :
  NoDup cnt.*1 -> NoDup (counter_incr cnt token).*1.
Proof.
  induction cnt as [|[t0 c] cnt IH]; simpl.
  - intros _. apply NoDup_singleton.
  - rewrite NoDup_cons. intros [Hnot Hnd]. case_decide as Heq; simpl.
    + by apply NoDup_cons.
    + apply NoDup_cons. split; [|by apply IH].
      intros [H| ->]%counter_incr_keys; [done|done].
Qed.

Lemma count_tokens_NoDup token_seqs cnt :
  NoDup cnt.*1 -> NoDup (count_tokens cnt token_seqs).*1.
Proof.
  revert cnt. induction token_seqs as [|s token_seqs IH]; intros cnt Hnd.
  - done.
  - change (count_tokens cnt (s :: token_seqs))
      with (count_tokens (fold_left counter_incr s cnt) token_seqs).
    apply IH. clear IH. revert cnt Hnd.
    induction s as [|token s IHs]; intros cnt Hnd; simpl; [done|].
    by apply IHs, counter_incr_NoDup.
Qed.

(** The keys of the counter of a corpus are its tokens. *)
Lemma count_tokens_keys_iff token_seqs t :
  t ∈ (count_tokens [] token_seqs).*1 ↔ t ∈ concat token_seqs.
Proof.
  split.
  - intros [H|(s & Hs & Ht)]%count_tokens_keys.
    + by apply elem_of_nil in H.
    + apply list_elem_of_In, in_concat. exists s.
      by rewrite <- !list_elem_of_In.
  - intros Ht. apply occurrences_pos in Ht.
    destruct (decide (t ∈ (count_tokens [] token_seqs).*1)) as [|Hnot]; [done|].
    apply counter_get_absent in Hnot.
    rewrite counter_get_count_tokens in Hnot. simpl in Hnot. lia.
Qed.

Lemma insert_by_count_sorted x l :
  StronglySorted (λ a b : string * Z, b.2 ≤ a.2) l ->
  StronglySorted (λ a b : string * Z, b.2 ≤ a.2) (insert_by_count x l).
Proof.
  induction 1 as [|y l Hl IH Hy]; simpl.
  - by repeat constructor.
  - destruct (Z.leb_spec y.2 x.2) as [Hle|Hgt].
    + constructor; [by constructor|]. constructor; [done|].
      eapply Forall_impl; [exact Hy|]. simpl. intros z Hz. lia.
    + constructor; [done|]. rewrite insert_by_count_perm.
      constructor; [lia|done].
Qed.

(** The items of [most_common] come by decreasing count. *)
Lemma sorted_by_count_sorted cnt :
  StronglySorted (λ a b : string * Z, b.2 ≤ a.2) (sorted_by_count cnt).
Proof.
  induction cnt as [|x cnt IH]; [constructor|].
  unfold sorted_by_count in *. simpl. by apply insert_by_count_sorted.
Qed.

(** Tokens that the vocabulary does not have are appended in their order. *)
Lemma add_tokens_fresh items v :
  NoDup items.*1 ->
  (∀ t, t ∈ items.*1 -> token_to_id v !! t = None) ->
  id_to_token (add_tokens v items) = id_to_token v ++ items.*1.
Proof.
  revert v. induction items as [|x items IH]; intros v Hnd Hfresh.
  - simpl. by rewrite app_nil_r.
  - change (add_tokens v (x :: items))
      with (add_tokens (add_or_get_id v x.1).1 items).
    rewrite fmap_cons in Hnd, Hfresh. apply NoDup_cons in Hnd as [Hx Hnd].
    assert (Hx1 : token_to_id v !! x.1 = None) by (apply Hfresh; left).
    rewrite IH; [|done|].
    + unfold add_or_get_id. rewrite Hx1. simpl.
      by rewrite <- app_assoc.
    + intros t Ht. unfold add_or_get_id. rewrite Hx1. simpl.
      rewrite lookup_insert_ne by (intros <-; done).
      apply Hfresh. by right.
Qed.

Lemma reserved_vocabulary_lookup_None t :
  t ∉ reserved_symbols -> token_to_id reserved_vocabulary !! t = None.
Proof.
  intros Hnot. destruct (token_to_id reserved_vocabulary !! t) as [i|] eqn:Hi;
    [|done].
  apply reserved_vocabulary_wf in Hi. rewrite reserved_vocabulary_tokens in Hi.
  destruct Hnot. apply list_elem_of_lookup. eauto.
Qed.

(** The tokens of a corpus are lowercased, and none is a reserved symbol
    when [str.lower] gives none. *)
Lemma corpus_token_not_reserved {str : StrLower} fuel data_files t :
  lower_avoids_reserved ->
  t ∈ concat (corpus fuel data_files) -> t ∉ reserved_symbols.
Proof.
  intros Hlower Ht. apply list_elem_of_In, in_concat in Ht as (s & Hs & Ht).
  unfold corpus in Hs. apply in_concat in Hs as (ys & Hys & Hs).
  apply in_map_iff in Hys as (g & <- & _).
  destruct (load_data_file_token_node g fuel s t) as (n & _ & ->);
    [by apply list_elem_of_In..|].
  apply Hlower.
Qed.

(** ** Further properties of [build_vocab_from_data_dir] *)

Lemma StronglySorted_lookup_lt {A} (R : A -> A -> Prop) (l : list A) i j x y :
  StronglySorted R l -> (i < j)%nat ->
  l !! i = Some x -> l !! j = Some y -> R x y.
Proof.
  intros Hl. revert i j. induction Hl as [|z l Hl IH Hz]; intros i j Hij Hi Hj.
  - by rewrite lookup_nil in Hi.
  - destruct j as [|j]; [lia|]. destruct i as [|i]; simpl in *.
    + injection Hi as ->. rewrite Forall_forall in Hz. apply Hz.
      apply list_elem_of_lookup. eauto.
    + apply (IH i j); [lia|done..].
Qed.

Section MostFrequent.

Context {str : StrLower}.

Context (fuel : nat) (data_files : list Graph) (vocab_size : Z).

Let tokens : list string := concat (corpus fuel data_files).
Let cnt : Counter := count_tokens [] (corpus fuel data_files).

Lemma corpus_counter_NoDup : NoDup cnt.*1.
Proof. apply count_tokens_NoDup. simpl. apply NoDup_nil_2. Qed.

Lemma corpus_counter_count x : x ∈ cnt -> x.2 = occurrences x.1 tokens.
Proof.
  intros Hx. destruct x as [t c]. simpl.
  rewrite <- (counter_get_elem cnt t c corpus_counter_NoDup Hx).
  unfold cnt. rewrite counter_get_count_tokens. simpl. done.
Qed.

Lemma corpus_counter_length : length cnt = length (remove_dups tokens).
Proof.
  rewrite <- (length_fmap fst cnt). apply Permutation_length.
  apply list.NoDup_Permutation.
  - apply corpus_counter_NoDup.
  - apply NoDup_remove_dups.
  - intros t. unfold cnt. rewrite count_tokens_keys_iff.
    by rewrite elem_of_remove_dups.
Qed.

Lemma most_common_NoDup : NoDup (most_common vocab_size cnt).*1.
Proof.
  unfold most_common. rewrite fmap_take.
  eapply sublist_NoDup; [|apply sublist_take].
  rewrite sorted_by_count_perm. apply corpus_counter_NoDup.
Qed.

Lemma most_common_fresh t :
  lower_avoids_reserved ->
  t ∈ (most_common vocab_size cnt).*1 ->
  token_to_id reserved_vocabulary !! t = None.
Proof.
  intros Hlower (x & -> & Hx)%list_elem_of_fmap. apply most_common_items in Hx.
  apply reserved_vocabulary_lookup_None.
  apply (corpus_token_not_reserved fuel data_files); [done|].
  apply count_tokens_keys_iff. apply list_elem_of_fmap. eauto.
Qed.

(** The vocabulary of a corpus. *)
Lemma build_vocab_returns :
  Forall (λ g, (load_data_file fuel g).2 = Finished) data_files ->
  build_vocab_from_data_dir fuel data_files vocab_size =
    Return (add_tokens reserved_vocabulary (most_common vocab_size cnt)).
Proof.
  intros Hall. unfold build_vocab_from_data_dir.
  by rewrite count_files_finished by done.
Qed.

(** Its tokens, when no token of the corpus is a reserved symbol. *)
Lemma build_vocab_tokens :
  lower_avoids_reserved ->
  id_to_token (add_tokens reserved_vocabulary (most_common vocab_size cnt)) =
    reserved_symbols ++ (most_common vocab_size cnt).*1.
Proof.
  intros Hlower. rewrite add_tokens_fresh.
  - by rewrite reserved_vocabulary_tokens.
  - apply most_common_NoDup.
  - intros t. by apply most_common_fresh.
Qed.

Lemma most_common_descending i j x y :
  (i ≤ j)%nat ->
  most_common vocab_size cnt !! i = Some x ->
  most_common vocab_size cnt !! j = Some y ->
  y.2 ≤ x.2.
Proof.
  intros Hij Hi Hj. destruct (decide (i = j)) as [->|Hne].
  - rewrite Hi in Hj. injection Hj as ->. lia.
  - pose proof (sorted_by_count_sorted cnt) as Hs.
    unfold most_common in *.
    apply lookup_take_Some in Hi as [Hi _]. apply lookup_take_Some in Hj as [Hj _].
    apply (StronglySorted_lookup_lt _ _ i j x y Hs); [lia|done..].
Qed.

Lemma most_common_dominates x y :
  x ∈ most_common vocab_size cnt -> y ∈ cnt ->
  y ∉ most_common vocab_size cnt -> y.2 ≤ x.2.
Proof.
  intros Hx Hy Hnot. unfold most_common in *.
  pose proof (sorted_by_count_sorted cnt) as Hs.
  rewrite <- (take_drop (Z.to_nat vocab_size) (sorted_by_count cnt)) in Hs.
  rewrite <- sorted_by_count_perm in Hy.
  rewrite <- (take_drop (Z.to_nat vocab_size) (sorted_by_count cnt)) in Hy.
  apply elem_of_app in Hy as [Hy|Hy]; [done|].
  by apply (StronglySorted_app_1_elem_of _ _ _ _ _ Hs).
Qed.

End MostFrequent.

(** X8: when the files of the corpus are read to their end, and [str.lower]
    gives no reserved symbol, the tokens of the vocabulary after the four
    reserved symbols are the most frequent tokens of the corpus: they are
    distinct tokens of the corpus, as many as [vocab_size] allows and the
    corpus has (none for a [vocab_size] below 1); they come by decreasing
    number of occurrences; and no token of the corpus that is left out
    occurs more often than one that is kept. *)
Theorem vocabulary_keeps_most_frequent_tokens {str : StrLower} (fuel : nat)
    (data_files : list Graph) (vocab_size : Z) :
  lower_avoids_reserved ->
  Forall (λ g, (load_data_file fuel g).2 = Finished) data_files ->
  let tokens := concat (corpus fuel data_files) in
  ∃ vocab rest,
    build_vocab_from_data_dir fuel data_files vocab_size = Return vocab ∧
    id_to_token vocab = reserved_symbols ++ rest ∧
    NoDup rest ∧
    len rest = Z.min (Z.max 0 vocab_size) (len (remove_dups tokens)) ∧
    (∀ t, t ∈ rest -> t ∈ tokens) ∧
    (∀ (i j : nat) t u,
       (i ≤ j)%nat -> rest !! i = Some t -> rest !! j = Some u ->
       occurrences u tokens ≤ occurrences t tokens) ∧
    (∀ t u,
       t ∈ rest -> u ∈ tokens -> u ∉ rest ->
       occurrences u tokens ≤ occurrences t tokens).
Proof.
  intros Hlower Hall tokens.
  pose proof (build_vocab_returns fuel data_files vocab_size Hall) as Hret.
  pose proof (build_vocab_tokens fuel data_files vocab_size Hlower) as Htok.
  set (vocab := add_tokens reserved_vocabulary
                  (most_common vocab_size
                     (count_tokens [] (corpus fuel data_files)))) in *.
  set (cnt := count_tokens [] (corpus fuel data_files)) in *.
  set (items := most_common vocab_size cnt) in *.
  assert (Hitems : ∀ x, x ∈ items -> x ∈ cnt ∧ x.2 = occurrences x.1 tokens).
  { intros x Hx. apply most_common_items in Hx. split; [done|].
    by apply corpus_counter_count. }
  exists vocab, (items.*1). split; [done|]. split; [done|].
  split; [apply most_common_NoDup|]. split; [|split; [|split]].
  - unfold len, items, most_common.
    rewrite length_fmap, length_take.
    assert (Hlen : length (sorted_by_count cnt) = length cnt)
      by (by rewrite sorted_by_count_perm).
    rewrite Hlen. unfold cnt. rewrite corpus_counter_length. fold tokens. lia.
  - intros t (x & -> & Hx)%list_elem_of_fmap.
    apply count_tokens_keys_iff. apply list_elem_of_fmap.
    exists x. split; [done|]. by apply Hitems.
  - intros i j t u Hij Hi Hj.
    apply list_lookup_fmap_Some in Hi as (x & -> & Hi).
    apply list_lookup_fmap_Some in Hj as (y & -> & Hj).
    destruct (Hitems x) as [_ <-]; [by eapply list_elem_of_lookup_2|].
    destruct (Hitems y) as [_ <-]; [by eapply list_elem_of_lookup_2|].
    by apply (most_common_descending fuel data_files vocab_size i j).
  - intros t u (x & -> & Hx)%list_elem_of_fmap Hu Hnot.
    apply (count_tokens_keys_iff (corpus fuel data_files)) in Hu.
    apply list_elem_of_fmap in Hu as (y & -> & Hy).
    destruct (Hitems x Hx) as [_ <-].
    pose proof (corpus_counter_count fuel data_files y Hy) as Hyc.
    fold tokens in Hyc. rewrite <- Hyc.
    apply (most_common_dominates fuel data_files vocab_size); [done..|].
    intros Hin. apply Hnot. apply list_elem_of_fmap. eauto.
Qed.

Lemma vocabulary_keeps_most_frequent_tokens_witness :
  ∃ vocab,
    build_vocab_from_data_dir (str := ascii_str) 4 [Examples.g_linear; Examples.g_fork] 1
      = Return vocab ∧
    id_to_token vocab = reserved_symbols ++ ["foo"%string].
Proof.
  destruct (vocabulary_keeps_most_frequent_tokens (str := ascii_str) 4
              [Examples.g_linear; Examples.g_fork] 1)
    as (vocab & rest & Hret & Htok & _).
  - exact ascii_lower_avoids_reserved.
  - repeat constructor.
  - exists vocab. split; [done|].
    vm_compute in Hret. injection Hret as <-. reflexivity.
Defined.

Lemma vocab_wf_NoDup v : vocab_wf v -> NoDup (id_to_token v).
Proof.
  intros Hwf. apply NoDup_alt. intros i j t Hi Hj.
  apply Hwf in Hi, Hj. congruence.
Qed.

(** X9: the vocabulary that [build_vocab_from_data_dir] returns is a
    bijection between its tokens and the ids [0 .. len(vocab) - 1]: no token
    is listed twice, the id of the token listed at position [i] is [i], every
    id is below the size, and a token that is not listed gets the id of the
    unknown symbol. *)
Theorem built_vocabulary_round_trip {str : StrLower} (fuel : nat) (data_files : list Graph)
    (vocab_size : Z) :
  Forall (λ g, (load_data_file fuel g).2 = Finished) data_files ->
  ∃ vocab unk_id,
    build_vocab_from_data_dir fuel data_files vocab_size = Return vocab ∧
    NoDup (id_to_token vocab) ∧
    (∀ (i : nat) t,
       id_to_token vocab !! i = Some t ↔ token_to_id vocab !! t = Some i) ∧
    (∀ (i : nat) t,
       id_to_token vocab !! i = Some t -> get_id_or_unk vocab t = Ok i) ∧
    (∀ t (i : nat),
       get_id_or_unk vocab t = Ok i -> Z.of_nat i < vocab_len vocab) ∧
    token_to_id vocab !! get_unk = Some unk_id ∧
    (∀ t, t ∉ id_to_token vocab -> get_id_or_unk vocab t = Ok unk_id).
Proof.
  intros Hall.
  pose proof (build_vocab_returns fuel data_files vocab_size Hall) as Hret.
  remember (add_tokens reserved_vocabulary
              (most_common vocab_size
                 (count_tokens [] (corpus fuel data_files)))) as vocab
    eqn:Hvocab.
  assert (Hwf : vocab_wf vocab).
  { rewrite Hvocab. apply add_tokens_wf, reserved_vocabulary_wf. }
  assert (Hunk : token_to_id vocab !! get_unk = Some 0%nat).
  { rewrite Hvocab. by apply add_tokens_lookup. }
  assert (Hbound : ∀ t (i : nat),
            token_to_id vocab !! t = Some i -> Z.of_nat i < vocab_len vocab).
  { intros t i Hi. apply Hwf, lookup_lt_Some in Hi. unfold vocab_len, len. lia. }
  exists vocab, 0%nat. split; [done|].
  split; [by apply vocab_wf_NoDup|].
  split; [intros i t; symmetry; apply Hwf|].
  split; [|split; [|split]].
  - intros i t Hi. apply Hwf in Hi. unfold get_id_or_unk. by rewrite Hi.
  - intros t i. unfold get_id_or_unk.
    destruct (token_to_id vocab !! t) as [k|] eqn:Hk.
    + intros [= <-]. by apply (Hbound t).
    + rewrite Hunk. intros [= <-]. by apply (Hbound get_unk).
  - done.
  - intros t Hnot. unfold get_id_or_unk.
    destruct (token_to_id vocab !! t) as [k|] eqn:Hk; [|by rewrite Hunk].
    apply Hwf in Hk. destruct Hnot. by eapply list_elem_of_lookup_2.
Qed.

Lemma built_vocabulary_round_trip_witness :
  ∃ vocab,
    build_vocab_from_data_dir (str := ascii_str) 4 [Examples.g_linear] 2 = Return vocab ∧
    NoDup (id_to_token vocab).
Proof.
  destruct (built_vocabulary_round_trip (str := ascii_str) 4 [Examples.g_linear] 2)
    as (vocab & unk_id & Hret & Hnd & _).
  - repeat constructor.
  - by exists vocab.
Defined.

Lemma count_files_app {str : StrLower} fuel fs1 rest cnt :
  Forall (λ g, (load_data_file fuel g).2 = Finished) fs1 ->
  count_files fuel (fs1 ++ rest) cnt =
    count_files fuel rest (count_tokens cnt (corpus fuel fs1)).
Proof.
  intros Hall. revert cnt.
  induction Hall as [|g fs1 Hg _ IH]; intros cnt; [done|].
  simpl. destruct (load_data_file fuel g) as [ys st] eqn:Hload.
  simpl in Hg. subst st. rewrite IH. unfold corpus. simpl.
  by rewrite Hload, count_tokens_app.
Qed.

Lemma count_files_return {str : StrLower} fuel data_files cnt cnt' :
  count_files fuel data_files cnt = Return cnt' ->
  Forall (λ g, (load_data_file fuel g).2 = Finished) data_files.
Proof.
  revert cnt. induction data_files as [|g data_files IH]; intros cnt; simpl.
  - constructor.
  - destruct (load_data_file fuel g) as [ys st] eqn:Hload.
    destruct st; [|done..]. intros Hret.
    constructor; [by rewrite Hload|]. by eapply IH.
Qed.

(** X10: [build_vocab_from_data_dir] returns a vocabulary exactly when every
    file of the corpus is read to its end. An exception that ends the
    reading of a file, after the files before it were read, is the exception
    of the whole call, and no vocabulary is returned: one malformed record
    aborts the construction. *)
Theorem build_vocab_needs_every_file {str : StrLower} (fuel : nat) (data_files : list Graph)
    (vocab_size : Z) :
  ((∃ vocab,
      build_vocab_from_data_dir fuel data_files vocab_size = Return vocab) ↔
   Forall (λ g, (load_data_file fuel g).2 = Finished) data_files) ∧
  (∀ fs1 g fs2 e,
     data_files = fs1 ++ g :: fs2 ->
     Forall (λ g, (load_data_file fuel g).2 = Finished) fs1 ->
     (load_data_file fuel g).2 = Raised e ->
     build_vocab_from_data_dir fuel data_files vocab_size = Raise e).
Proof.
  split; [split|].
  - intros [vocab Hret]. unfold build_vocab_from_data_dir in Hret.
    destruct (count_files fuel data_files []) as [cnt| |] eqn:Hcnt; [|done..].
    by eapply count_files_return.
  - intros Hall. unfold build_vocab_from_data_dir.
    rewrite count_files_finished by done. eauto.
  - intros fs1 g fs2 e -> Hfs1 Hg. unfold build_vocab_from_data_dir.
    rewrite count_files_app by done. simpl.
    destruct (load_data_file fuel g) as [ys st]. simpl in Hg. by subst st.
Qed.

Lemma build_vocab_needs_every_file_witness :
  build_vocab_from_data_dir (str := ascii_str) 4 [Examples.g_linear; Examples.g_missing_start] 10
    = Raise (KeyError (PyInt 5)).
Proof.
  destruct (build_vocab_needs_every_file (str := ascii_str) 4
              [Examples.g_linear; Examples.g_missing_start] 10) as [_ Hraise].
  apply (Hraise [Examples.g_linear] Examples.g_missing_start []).
  - reflexivity.
  - repeat constructor.
  - reflexivity.
Defined.

(** ** Further properties of [tensorise_token_sequence] *)

Section Rows.

Context (vocab : Vocabulary) (unk_id pad_id start_id end_id : nat).
Hypothesis Hres : has_reserved vocab unk_id pad_id start_id end_id.

Local Abbreviation row_of token_seq L :=
  (position_id unk_id pad_id start_id end_id vocab token_seq <$> range L).

Lemma tensorise_position_id token_seq (i : Z) :
  0 ≤ i ->
  tensorise_position vocab token_seq i =
    Ok (position_id unk_id pad_id start_id end_id vocab token_seq i).
Proof.
  intros Hi. unfold position_id.
  destruct (Z.eqb_spec i 0) as [->|Hne].
  { by apply (position_start _ _ _ _ _ Hres). }
  destruct (Z.geb_spec (len token_seq) i).
  { apply (position_token _ _ _ _ _ Hres). lia. }
  destruct (Z.eqb_spec i (len token_seq + 1)) as [->|Hne'].
  { by apply (position_end _ _ _ _ _ Hres). }
  apply (position_pad _ _ _ _ _ Hres). lia.
Qed.

(** The tensoriser returns, whatever the length and the sequence. *)
Lemma tensorise_by_position (L : Z) token_seq :
  tensorise_token_sequence vocab L token_seq = Ok (row_of token_seq L).
Proof.
  unfold tensorise_token_sequence. apply mapM_ok, Forall_seqZ.
  intros i Hi. apply tensorise_position_id. lia.
Qed.

Lemma row_of_lookup (L : Z) token_seq (i : nat) :
  row_of token_seq L !! i =
    if decide (Z.of_nat i < L)
    then Some (position_id unk_id pad_id start_id end_id vocab token_seq
                           (Z.of_nat i))
    else None.
Proof.
  rewrite list_lookup_fmap. unfold range. case_decide.
  - by rewrite lookup_seqZ_lt.
  - by rewrite lookup_seqZ_ge by lia.
Qed.

Lemma row_of_length (L : Z) token_seq : len (row_of token_seq L) = Z.max 0 L.
Proof. unfold len, range. rewrite length_fmap, length_seqZ. lia. Qed.

Lemma token_at_lookup token_seq (i : nat) t :
  token_seq !! i = Some t -> token_at token_seq (Z.of_nat i + 1) = t.
Proof.
  intros Hi. unfold token_at.
  replace (Z.to_nat (Z.of_nat i + 1 - 1)) with i by lia. by rewrite Hi.
Qed.

Lemma position_id_token token_seq (i : nat) t :
  token_seq !! i = Some t ->
  position_id unk_id pad_id start_id end_id vocab token_seq (Z.of_nat i + 1)
    = id_or unk_id vocab t.
Proof.
  intros Hi. unfold position_id.
  pose proof (lookup_lt_Some _ _ _ Hi) as Hlt. unfold len.
  destruct (Z.eqb_spec (Z.of_nat i + 1) 0); [lia|].
  destruct (Z.geb_spec (Z.of_nat (length token_seq)) (Z.of_nat i + 1)); [|lia].
  by rewrite (token_at_lookup _ _ t).
Qed.

Hypothesis Hwf : vocab_wf vocab.

Lemma id_or_decodes token :
  id_to_token vocab !! id_or unk_id vocab token =
    Some (if decide (token ∈ id_to_token vocab) then token else get_unk).
Proof.
  unfold id_or. destruct (token_to_id vocab !! token) as [i|] eqn:Hi; simpl.
  - apply Hwf in Hi. rewrite decide_True; [done|].
    by eapply list_elem_of_lookup_2.
  - rewrite decide_False.
    + apply Hwf. by destruct Hres.
    + intros [i Hin]%list_elem_of_lookup. apply Hwf in Hin. congruence.
Qed.

Lemma position_id_bound token_seq (i : Z) :
  (position_id unk_id pad_id start_id end_id vocab token_seq i
     < length (id_to_token vocab))%nat.
Proof.
  destruct Hres as [Hu Hp Hs He]. apply Hwf in Hu, Hp, Hs, He.
  unfold position_id.
  destruct (i =? 0); [by eapply lookup_lt_Some|].
  destruct (len token_seq >=? i).
  { eapply lookup_lt_Some. apply id_or_decodes. }
  destruct (i =? len token_seq + 1); by eapply lookup_lt_Some.
Qed.

(** A token whose id is the id of a symbol other than the unknown one is
    that symbol. *)
Lemma id_or_known token symbol k :
  token_to_id vocab !! symbol = Some k -> symbol ≠ get_unk ->
  id_or unk_id vocab token = k -> token = symbol.
Proof.
  intros Hk Hne Hid. pose proof (id_or_decodes token) as Hdec.
  rewrite Hid in Hdec. apply Hwf in Hk. rewrite Hk in Hdec.
  case_decide; congruence.
Qed.

End Rows.

(** X11: with a vocabulary that has the reserved symbols, the tensoriser
    returns for every length and every sequence, and the list has exactly
    [max(0, length)] ids, each of them an id of the vocabulary; when the
    length is positive the first one is the start id. *)
Theorem tensorise_returns_row_of_valid_ids (vocab : Vocabulary)
    (unk_id pad_id start_id end_id : nat) (L : Z) (token_seq : list string) :
  has_reserved vocab unk_id pad_id start_id end_id ->
  vocab_wf vocab ->
  ∃ out,
    tensorise_token_sequence vocab L token_seq = Ok out ∧
    len out = Z.max 0 L ∧
    (∀ k, k ∈ out -> Z.of_nat k < vocab_len vocab) ∧
    (0 < L -> out !! 0%nat = Some start_id).
Proof.
  intros Hres Hwf. eexists.
  split; [apply (tensorise_by_position _ _ _ _ _ Hres)|].
  split; [apply row_of_length|]. split.
  - intros k (i & -> & _)%list_elem_of_fmap. unfold vocab_len, len.
    pose proof (position_id_bound _ _ _ _ _ Hres Hwf token_seq i). lia.
  - intros HL. rewrite row_of_lookup. by rewrite decide_True by lia.
Qed.

Lemma tensorise_returns_row_of_valid_ids_witness :
  ∃ out,
    tensorise_token_sequence Examples.vocab_pif 4 ["int"; "bar"]%string = Ok out ∧
    len out = Z.max 0 4.
Proof.
  destruct (tensorise_returns_row_of_valid_ids Examples.vocab_pif 0 1 2 3 4
              ["int"; "bar"]%string) as (out & Hout & Hlen & _).
  - split; reflexivity.
  - apply add_tokens_wf, reserved_vocabulary_wf.
  - by exists out.
Defined.

(** X12: a row decodes to its tokens: for every token of the sequence that
    has a position in the row (index [i] with [i + 1 < length]), the id at
    position [i + 1] is listed in the vocabulary with that token, or with
    the unknown symbol when the vocabulary does not have the token. *)
Theorem tensorised_tokens_decode (vocab : Vocabulary)
    (unk_id pad_id start_id end_id : nat) (L : Z) (token_seq : list string)
    (i : nat) (token : string) :
  has_reserved vocab unk_id pad_id start_id end_id ->
  vocab_wf vocab ->
  token_seq !! i = Some token ->
  Z.of_nat i + 1 < L ->
  ∃ out k,
    tensorise_token_sequence vocab L token_seq = Ok out ∧
    out !! S i = Some k ∧
    id_to_token vocab !! k =
      Some (if decide (token ∈ id_to_token vocab) then token else get_unk).
Proof.
  intros Hres Hwf Hi HL. eexists _, (id_or unk_id vocab token).
  split; [apply (tensorise_by_position _ _ _ _ _ Hres)|]. split.
  - rewrite row_of_lookup, decide_True by lia.
    replace (Z.of_nat (S i)) with (Z.of_nat i + 1) by lia.
    by rewrite (position_id_token _ _ _ _ _ _ _ token).
  - by apply (id_or_decodes _ _ _ _ _ Hres).
Qed.

Lemma tensorised_tokens_decode_witness :
  ∃ out k,
    tensorise_token_sequence Examples.vocab_pif 4 ["int"; "bar"]%string = Ok out ∧
    out !! 2%nat = Some k ∧
    id_to_token Examples.vocab_pif !! k = Some get_unk.
Proof.
  destruct (tensorised_tokens_decode Examples.vocab_pif 0 1 2 3 4
              ["int"; "bar"]%string 1 "bar"%string)
    as (out & k & Hout & Hk & Hdec).
  - split; reflexivity.
  - apply add_tokens_wf, reserved_vocabulary_wf.
  - reflexivity.
  - lia.
  - exists out, k. split; [done|]. split; [done|]. rewrite Hdec.
    reflexivity.
Defined.

(** ** [load_data_from_dir] *)

Section Pipeline.

Context {str : StrLower}.

Context (vocab : Vocabulary) (unk_id pad_id start_id end_id : nat).
Hypothesis Hres : has_reserved vocab unk_id pad_id start_id end_id.

Local Abbreviation row_of token_seq L :=
  (position_id unk_id pad_id start_id end_id vocab token_seq <$> range L).

Lemma tensorise_all (L : Z) (token_seqs : list (list string)) :
  mapM (tensorise_token_sequence vocab L) token_seqs =
    Ok ((λ token_seq, row_of token_seq L) <$> token_seqs).
Proof.
  apply mapM_ok, Forall_forall. intros token_seq _.
  apply (tensorise_by_position _ _ _ _ _ Hres).
Qed.

(** The rows of a corpus that is read to its end. *)
Lemma load_data_from_dir_rows fuel (L : Z) data_files :
  Forall (λ g, (load_data_file fuel g).2 = Finished) data_files ->
  load_data_from_dir fuel vocab L data_files =
    Return ((λ token_seq, row_of token_seq L) <$> corpus fuel data_files).
Proof.
  induction 1 as [|g data_files Hg _ IH]; [done|].
  simpl. unfold corpus in *. simpl.
  destruct (load_data_file fuel g) as [token_seqs st]. simpl in *. subst st.
  by rewrite tensorise_all, IH, fmap_app.
Qed.

Hypothesis Hwf : vocab_wf vocab.

Lemma reserved_ids_distinct :
  start_id ≠ end_id ∧ start_id ≠ pad_id ∧ end_id ≠ pad_id.
Proof.
  destruct Hres as [_ Hp Hs He]. apply Hwf in Hp, Hs, He.
  repeat split; intros Heq; rewrite Heq in *;
    match goal with
    | H1 : ?l !! ?k = Some ?a, H2 : ?l !! ?k = Some ?b |- _ =>
      rewrite H1 in H2; by vm_compute in H2
    end.
Qed.

Lemma position_id_cases token_seq (i : Z) :
  0 ≤ i ->
  let k := position_id unk_id pad_id start_id end_id vocab token_seq i in
  (i = 0 ∧ k = start_id) ∨
  (1 ≤ i ≤ len token_seq ∧
   ∃ t, t ∈ token_seq ∧ k = id_or unk_id vocab t) ∨
  (i = len token_seq + 1 ∧ k = end_id) ∨
  (len token_seq + 1 < i ∧ k = pad_id).
Proof.
  intros Hi k. unfold k, position_id.
  destruct (Z.eqb_spec i 0); [by left|].
  destruct (Z.geb_spec (len token_seq) i).
  { right. left. split; [lia|]. unfold token_at, len in *.
    destruct (lookup_lt_is_Some_2 token_seq (Z.to_nat (i - 1))) as [t Ht];
      [lia|].
    exists t. rewrite Ht. split; [by eapply list_elem_of_lookup_2|done]. }
  destruct (Z.eqb_spec i (len token_seq + 1)); [by right; right; left|].
  right. right. right. split; [lia|done].
Qed.

Local Ltac marker_iff :=
  split;
  [ intros Heq; first [ exfalso; congruence | lia | split; lia ]
  | intros Hc; unfold len in *; first [ exfalso; lia | done ] ].

(** In the row of a sequence without reserved symbols, the start id, the
    end id and the pad id are where the layout puts them, and nowhere
    else. *)
Lemma row_markers (L : Z) token_seq (i : nat) :
  (∀ t, t ∈ token_seq -> t ∉ reserved_symbols) ->
  (row_of token_seq L !! i = Some start_id ↔ i = 0%nat ∧ 0 < L) ∧
  (row_of token_seq L !! i = Some end_id ↔
     Z.of_nat i = len token_seq + 1 ∧ Z.of_nat i < L) ∧
  (row_of token_seq L !! i = Some pad_id ↔
     len token_seq + 1 < Z.of_nat i < L).
Proof.
  intros Hseq. destruct reserved_ids_distinct as (Hse & Hsp & Hep).
  assert (Htok : ∀ t, t ∈ token_seq ->
            id_or unk_id vocab t ≠ start_id ∧
            id_or unk_id vocab t ≠ end_id ∧
            id_or unk_id vocab t ≠ pad_id).
  { intros t Ht. pose proof (Hseq t Ht) as Hnot. unfold reserved_symbols in Hnot.
    rewrite !not_elem_of_cons in Hnot. destruct Hnot as (_ & Hp & Hs & He & _).
    destruct Hres as [Hu Hp' Hs' He'].
    repeat split; intros Hid.
    - by apply (id_or_known _ _ _ _ _ Hres Hwf t START_SYMBOL) in Hid.
    - by apply (id_or_known _ _ _ _ _ Hres Hwf t END_SYMBOL) in Hid.
    - by apply (id_or_known _ _ _ _ _ Hres Hwf t get_pad) in Hid. }
  rewrite (row_of_lookup _ _ _ _ _). case_decide as HL.
  - destruct (position_id_cases token_seq (Z.of_nat i) ltac:(lia))
      as [[Hi ->]|[[Hi (t & Ht & ->)]|[[Hi ->]|[Hi ->]]]];
      try destruct (Htok t Ht) as (H1 & H2 & H3);
      (split; [|split]); marker_iff.
  - (split; [|split]); marker_iff.
Qed.

End Pipeline.

(** X13: with a vocabulary that has the reserved symbols and files that are
    read to their end, [load_data_from_dir] returns one row for each token
    sequence that the files yield, in the order of the yields; each row is
    what the tensoriser returns for its sequence, and all rows have
    [max(0, length)] entries, so that the array is rectangular. *)
Theorem load_data_from_dir_is_rectangular {str : StrLower} (vocab : Vocabulary)
    (unk_id pad_id start_id end_id : nat) (fuel : nat) (L : Z)
    (data_files : list Graph) :
  has_reserved vocab unk_id pad_id start_id end_id ->
  Forall (λ g, (load_data_file fuel g).2 = Finished) data_files ->
  ∃ rows,
    load_data_from_dir fuel vocab L data_files = Return rows ∧
    Forall2 (λ row token_seq,
               tensorise_token_sequence vocab L token_seq = Ok row)
            rows (corpus fuel data_files) ∧
    length rows = length (corpus fuel data_files) ∧
    Forall (λ row, len row = Z.max 0 L) rows.
Proof.
  intros Hres Hall. eexists.
  split; [by apply (load_data_from_dir_rows _ _ _ _ _ Hres)|].
  split; [|split].
  - apply Forall2_fmap_l, Forall_Forall2_diag, Forall_forall.
    intros token_seq _. apply (tensorise_by_position _ _ _ _ _ Hres).
  - by rewrite length_fmap.
  - apply Forall_fmap, Forall_forall. intros token_seq _.
    apply row_of_length.
Qed.

Lemma load_data_from_dir_is_rectangular_witness :
  ∃ rows,
    load_data_from_dir (str := ascii_str) 4 Examples.vocab_pif 6 [Examples.g_linear]
      = Return rows ∧
    rows = [[2; 4; 5; 6; 3; 1]; [2; 6; 3; 1; 1; 1]]%nat.
Proof.
  destruct (load_data_from_dir_is_rectangular (str := ascii_str) Examples.vocab_pif 0 1 2 3 4 6
              [Examples.g_linear]) as (rows & Hret & _).
  - split; reflexivity.
  - repeat constructor.
  - exists rows. split; [done|].
    vm_compute in Hret. by injection Hret as <-.
Defined.

(** X14: in the rows that [load_data_from_dir] makes of a corpus, the
    reserved ids mark the sequence: the start id is at position 0 and
    nowhere else, the end id is at position [len(seq) + 1] when the row has
    that position and nowhere else, and the pad id is at the positions
    after it and nowhere else. No token of a record is taken for a marker,
    [str.lower] giving no reserved symbol. *)
Theorem pipeline_rows_mark_sequence_bounds {str : StrLower} (vocab : Vocabulary)
    (unk_id pad_id start_id end_id : nat) (fuel : nat) (L : Z)
    (data_files : list Graph) :
  lower_avoids_reserved ->
  has_reserved vocab unk_id pad_id start_id end_id ->
  vocab_wf vocab ->
  Forall (λ g, (load_data_file fuel g).2 = Finished) data_files ->
  ∃ rows,
    load_data_from_dir fuel vocab L data_files = Return rows ∧
    Forall2 (λ (row : list nat) (token_seq : list string),
               ∀ i : nat,
                 (row !! i = Some start_id ↔ i = 0%nat ∧ 0 < L) ∧
                 (row !! i = Some end_id ↔
                    Z.of_nat i = len token_seq + 1 ∧ Z.of_nat i < L) ∧
                 (row !! i = Some pad_id ↔
                    len token_seq + 1 < Z.of_nat i < L))
            rows (corpus fuel data_files).
Proof.
  intros Hlower Hres Hwf Hall. eexists.
  split; [by apply (load_data_from_dir_rows _ _ _ _ _ Hres)|].
  apply Forall2_fmap_l, Forall_Forall2_diag, Forall_forall.
  intros token_seq Hseq i.
  apply (row_markers _ _ _ _ _ Hres Hwf). intros t Ht.
  apply (corpus_token_not_reserved fuel data_files); [done|].
  apply list_elem_of_In, in_concat. exists token_seq.
  by rewrite <- !list_elem_of_In.
Qed.

Lemma pipeline_rows_mark_sequence_bounds_witness :
  ∃ rows,
    load_data_from_dir (str := ascii_str) 4 Examples.vocab_pif 3 [Examples.g_linear]
      = Return rows ∧
    rows = [[2; 4; 5]; [2; 6; 3]]%nat.
Proof.
  destruct (pipeline_rows_mark_sequence_bounds (str := ascii_str) Examples.vocab_pif 0 1 2 3 4 3
              [Examples.g_linear]) as (rows & Hret & _).
  - exact ascii_lower_avoids_reserved.
  - split; reflexivity.
  - apply add_tokens_wf, reserved_vocabulary_wf.
  - repeat constructor.
  - exists rows. split; [done|].
    vm_compute in Hret. by injection Hret as <-.
Defined.

(** ** Further properties of [get_minibatch_iterator] *)

Lemma Forall2_concat {A B} (R : A -> B -> Prop) xss yss :
  Forall2 (Forall2 R) xss yss -> Forall2 R (concat xss) (concat yss).
Proof.
  induction 1 as [|xs ys xss yss Hxy _ IH]; simpl; [constructor|].
  by apply Forall2_app.
Qed.

(** The rows at the indices [0 .. k-1] are the [k] first rows. *)
Lemma rows_of_prefix {A} (l rows : list A) (k : nat) :
  (k ≤ length l)%nat ->
  Forall2 (λ row i, l !! Z.to_nat i = Some row) rows (seqZ 0 (Z.of_nat k)) ->
  rows = take k l.
Proof.
  intros Hk Hall. pose proof (Forall2_length _ _ _ Hall) as Hlen.
  rewrite length_seqZ, Nat2Z.id in Hlen.
  apply list_eq. intros j. destruct (decide (j < k)%nat) as [Hj|Hj].
  - destruct (Forall2_lookup_r _ _ _ j (0 + Z.of_nat j) Hall)
      as (row & Hrow & Hl).
    { apply lookup_seqZ_lt. lia. }
    rewrite Hrow, lookup_take_lt by done.
    by replace (Z.to_nat (0 + Z.of_nat j)) with j in Hl by lia.
  - rewrite lookup_take_ge by lia. apply lookup_ge_None. lia.
Qed.

(** The chunks of indices of a run of the iterator. *)
Lemma minibatch_structure {A} (shuffle : list Z -> list Z)
    (token_seqs : list A) (batch_size : Z) (is_training : bool) :
  (is_training = true -> ∀ l, shuffle l ≡ₚ l) ->
  0 < batch_size ->
  let N := len token_seqs in
  let indices := if is_training then shuffle (range N) else range N in
  ∃ full rest : list (list Z),
    (∀ d, minibatch_indices shuffle N batch_size is_training d
          = Ok (if d then full else full ++ rest)) ∧
    Forall (λ c, len c = batch_size) full ∧
    (rest = [] ∨ ∃ c, rest = [c] ∧ 0 < len c < batch_size) ∧
    concat full ++ concat rest = indices ∧
    Forall (λ i, 0 ≤ i < N) indices ∧
    N = batch_size * len full + len (concat rest) ∧
    len (concat rest) < batch_size.
Proof.
  intros Hshuffle Hsize N indices.
  assert (Hperm : indices ≡ₚ range N).
  { unfold indices. destruct is_training; [by apply Hshuffle|done]. }
  assert (Hlen : length indices = length token_seqs).
  { rewrite Hperm. unfold range, N, len. rewrite length_seqZ. lia. }
  assert (Hbound : Forall (λ i, 0 ≤ i < N) indices).
  { rewrite Hperm. apply Forall_seqZ. lia. }
  destruct (chunks_shape (Z.to_nat batch_size) indices ltac:(lia))
    as (full & rest & Hcs & Hfull & Hrest).
  pose proof (chunks_concat (Z.to_nat batch_size) indices ltac:(lia)) as Hcat.
  rewrite Hcs, concat_app in Hcat.
  assert (Hfullz : Forall (λ c : list Z, len c = batch_size) full).
  { eapply Forall_impl; [exact Hfull|]. intros c Hc. simpl in Hc.
    unfold len. lia. }
  assert (Hrestz : rest = [] ∨ ∃ c : list Z, rest = [c] ∧ 0 < len c < batch_size).
  { destruct Hrest as [->|(c & -> & Hc)]; [by left|].
    right. exists c. split; [done|]. unfold len. lia. }
  exists full, rest. split; [|split; [done|split; [done|split; [done|]]]].
  - intros d. unfold minibatch_indices, chunked. fold indices.
    destruct (Z.ltb_spec batch_size 0); [lia|]. simpl. rewrite Hcs.
    destruct d; [|by rewrite emitted_keep_all].
    f_equal. apply emitted_drop; [done|].
    destruct Hrestz as [->|(c & -> & Hc)]; [by left|].
    right. exists c. split; [done|lia].
  - split; [done|].
    pose proof (length_concat_full _ full Hfull) as Hl.
    split.
    + unfold N, len. rewrite <- Hlen, <- Hcat, length_app, Hl. lia.
    + destruct Hrestz as [->|(c & -> & Hc)]; simpl; [unfold len; simpl; lia|].
      rewrite app_nil_r. lia.
Qed.

(** X15: for a positive [batch_size], every batch has at least one row and
    at most [batch_size] rows, and every batch but the last one has
    [batch_size] rows. With [drop_remainder] all batches have [batch_size]
    rows and there are [N // batch_size] of them (none when the array has
    fewer rows than a batch); without it there are
    [(N + batch_size - 1) // batch_size]. *)
Theorem minibatch_sizes_and_count {A : Type} (shuffle : list Z -> list Z)
    (token_seqs : list A) (batch_size : Z) (is_training drop_remainder : bool) :
  (∀ l, shuffle l ≡ₚ l) ->
  0 < batch_size ->
  let N := len token_seqs in
  ∃ batches,
    get_minibatch_iterator shuffle token_seqs batch_size is_training
                           drop_remainder = Ok batches ∧
    Forall (λ b, 0 < len b ≤ batch_size) batches ∧
    (∀ (j : nat) b,
       batches !! j = Some b -> Z.of_nat j + 1 < len batches ->
       len b = batch_size) ∧
    (drop_remainder = true -> Forall (λ b, len b = batch_size) batches) ∧
    len batches = (if drop_remainder then N / batch_size
                   else (N + batch_size - 1) / batch_size).
Proof.
  intros Hshuffle Hsize N.
  destruct (minibatch_structure shuffle token_seqs batch_size is_training)
    as (full & rest & Hidx & Hfull & Hrest & Hcat & Hbound & HN & Hr);
    [auto|done|].
  fold N in HN.
  set (idx := if drop_remainder then full else full ++ rest).
  destruct (take_rows_batches token_seqs idx) as (batches & Hget & Hall).
  { rewrite <- Hcat in Hbound. unfold idx. destruct drop_remainder.
    - by apply Forall_app in Hbound as [? _].
    - by rewrite concat_app. }
  assert (Hsizes : ∀ (j : nat) b, batches !! j = Some b ->
            ∃ c, idx !! j = Some c ∧ len b = len c).
  { intros j b Hb.
    destruct (Forall2_lookup_l _ _ _ _ _ Hall Hb) as (c & Hc & Hbc).
    exists c. split; [done|]. unfold len. by rewrite (Forall2_length _ _ _ Hbc). }
  assert (Hidxfull : ∀ (j : nat) c, idx !! j = Some c ->
            (j < length full)%nat -> len c = batch_size).
  { intros j c Hc Hj. rewrite Forall_lookup in Hfull. apply (Hfull j).
    unfold idx in Hc. destruct drop_remainder; [done|].
    by rewrite lookup_app_l in Hc. }
  assert (Hidxany : ∀ (j : nat) c, idx !! j = Some c ->
            0 < len c ≤ batch_size).
  { intros j c Hc. destruct (decide (j < length full)%nat) as [Hj|Hj].
    - rewrite (Hidxfull j c Hc Hj). lia.
    - unfold idx in Hc. destruct drop_remainder.
      + apply lookup_lt_Some in Hc. lia.
      + rewrite lookup_app_r in Hc by lia.
        destruct Hrest as [->|(c' & -> & Hc')]; [by rewrite lookup_nil in Hc|].
        destruct (j - length full)%nat; simpl in Hc; [|by rewrite lookup_nil in Hc].
        injection Hc as <-. lia. }
  assert (Hcount : length batches = length idx) by (by eapply Forall2_length).
  exists batches. split.
  { unfold get_minibatch_iterator. by rewrite Hidx. }
  split; [|split; [|split]].
  - apply Forall_lookup. intros j b Hb.
    destruct (Hsizes j b Hb) as (c & Hc & ->). by apply (Hidxany j).
  - intros j b Hb Hj. destruct (Hsizes j b Hb) as (c & Hc & ->).
    apply (Hidxfull j c Hc). unfold len in Hj. rewrite Hcount in Hj.
    unfold idx in Hj. destruct drop_remainder; [lia|].
    rewrite length_app in Hj.
    destruct Hrest as [->|(c' & -> & _)]; simpl in Hj; lia.
  - intros ->. apply Forall_lookup. intros j b Hb.
    destruct (Hsizes j b Hb) as (c & Hc & ->).
    apply (Hidxfull j c Hc). by apply lookup_lt_Some in Hc.
  - unfold len at 1. rewrite Hcount. unfold idx. destruct drop_remainder.
    + apply (Z.div_unique_pos N batch_size _ (len (concat rest))); [|done].
      unfold len in *. lia.
    + rewrite length_app.
      destruct Hrest as [->|(c & -> & Hc)]; simpl in *.
      * apply (Z.div_unique_pos _ batch_size _ (batch_size - 1)); [lia|].
        unfold len in *. simpl in *. lia.
      * rewrite app_nil_r in HN.
        apply (Z.div_unique_pos _ batch_size _ (len c - 1)); [lia|].
        unfold len in *. lia.
Qed.

Lemma minibatch_sizes_and_count_witness :
  ∃ batches,
    get_minibatch_iterator (@rev Z) [[10]; [11]; [12]]%nat 5 true true
      = Ok batches ∧
    len batches = 3 / 5.
Proof.
  destruct (minibatch_sizes_and_count (@rev Z) [[10]; [11]; [12]]%nat 5
              true true) as (batches & Hit & _ & _ & _ & Hcount).
  - intros l. symmetry. apply Permutation_rev.
  - lia.
  - by exists batches.
Defined.

(** X16: without shuffling the batches hold the rows in the order of the
    array: put together they are the array itself, or, with
    [drop_remainder], its first [N - N mod batch_size] rows. *)
Theorem minibatches_keep_order {A : Type} (shuffle : list Z -> list Z)
    (token_seqs : list A) (batch_size : Z) (drop_remainder : bool) :
  0 < batch_size ->
  let N := len token_seqs in
  ∃ batches,
    get_minibatch_iterator shuffle token_seqs batch_size false drop_remainder
      = Ok batches ∧
    concat batches =
      (if drop_remainder then take (Z.to_nat (N - N mod batch_size)) token_seqs
       else token_seqs).
Proof.
  intros Hsize N.
  destruct (minibatch_structure shuffle token_seqs batch_size false)
    as (full & rest & Hidx & Hfull & Hrest & Hcat & Hbound & HN & Hr);
    [done|done|].
  fold N in HN, Hcat, Hbound. simpl in Hcat, Hbound.
  set (m := Z.to_nat (batch_size * len full)).
  assert (Hm : concat full = seqZ 0 (Z.of_nat m)).
  { assert (Hl : length (concat full) = m).
    { rewrite (length_concat_full (Z.to_nat batch_size)).
      - unfold m, len. lia.
      - eapply Forall_impl; [exact Hfull|]. intros c Hc. simpl in Hc.
        unfold len in Hc. lia. }
    unfold range in Hcat.
    replace N with (Z.of_nat m + len (concat rest)) in Hcat
      by (unfold m; unfold len in *; lia).
    rewrite seqZ_app in Hcat by (unfold len; lia).
    apply app_inj_1 in Hcat as [Hcat _]; [done|].
    rewrite length_seqZ. lia. }
  assert (Hmod : N mod batch_size = len (concat rest)).
  { symmetry. apply (Z.mod_unique_pos N batch_size (len full)); [|done].
    unfold len in *. lia. }
  set (idx := if drop_remainder then full else full ++ rest).
  destruct (take_rows_batches token_seqs idx) as (batches & Hget & Hall).
  { rewrite <- Hcat in Hbound. unfold idx. destruct drop_remainder.
    - by apply Forall_app in Hbound as [? _].
    - by rewrite concat_app. }
  exists batches. split.
  { unfold get_minibatch_iterator. by rewrite Hidx. }
  apply Forall2_concat in Hall. unfold idx in Hall. destruct drop_remainder.
  - rewrite Hm in Hall. apply rows_of_prefix in Hall.
    + rewrite Hall. f_equal. unfold m. lia.
    + unfold m, N, len in *. lia.
  - rewrite concat_app, Hcat in Hall. unfold range, N, len in Hall.
    apply rows_of_prefix in Hall; [|done]. by rewrite take_ge in Hall.
Qed.

Lemma minibatches_keep_order_witness :
  ∃ batches,
    get_minibatch_iterator (@rev Z) [[10]; [11]; [12]; [13]; [14]]%nat 2
                           false true = Ok batches ∧
    concat batches = [[10]; [11]; [12]; [13]]%nat.
Proof.
  destruct (minibatches_keep_order (@rev Z) [[10]; [11]; [12]; [13]; [14]]%nat 2
              true) as (batches & Hit & Hcat).
  - lia.
  - exists batches. split; [done|]. rewrite Hcat. reflexivity.
Defined.

(** ** The traversal of a chain, and a vocabulary that covers its corpus *)

(** X5: when the chain of next-token edges from the start node of a method
    root first arrives at the end node after [k] steps, through nodes of the
    record, the traversal completes under every bound above [k], with [k]
    tokens: the lowercased contents of the [k] nodes before the arrival. *)
Theorem traversal_of_reaching_chain {str : StrLower} (g : Graph) (m sn en : FeatureNode)
    (k fuel : nat) :
  let ix := build_index g in
  let ed := build_edges g in
  tokens_by_start_pos ix !! startPosition m = Some sn ->
  tokens_by_end_pos ix !! endPosition m = Some en ->
  chain ed (id sn) k = id en ->
  chain_open ix ed (id sn) (id en) k ->
  (k < fuel)%nat ->
  ∃ tokens,
    extract_method fuel ix ed m = Done tokens ∧
    length tokens = k ∧
    ∀ j, (j < k)%nat ->
      ∃ n, n ∈ node g ∧ id n = chain ed (id sn) j ∧
           tokens !! j = Some (lower (contents n)).
Proof.
  intros ix ed Hsn Hen Hreach Hopen Hfuel.
  exists (chain_tokens ix ed (id sn) k). split; [|split].
  - unfold extract_method. rewrite Hsn.
    replace fuel with (k + S (fuel - S k))%nat by lia.
    rewrite (while_loop_chain ix ed m en Hen) by done.
    rewrite Hreach. by apply while_loop_exit.
  - by apply (chain_tokens_length ix ed en).
  - intros j Hj.
    destruct (chain_tokens_lookup ix ed (id en) (id sn) k j Hopen Hj)
      as (n & Hn & Htok).
    exists n. apply nodes_dict_elem in Hn as [Hin Hid]. done.
Qed.

Lemma g_linear_open :
  chain_open (build_index Examples.g_linear) (build_edges Examples.g_linear)
             1 4 3.
Proof.
  intros [|[|[|j]]] Hj; [| | |lia]; (split; [by vm_compute|vm_compute; eauto]).
Qed.

Lemma traversal_of_reaching_chain_witness :
  ∃ tokens,
    extract_method (str := ascii_str) 9 (build_index Examples.g_linear)
      (build_edges Examples.g_linear) (Examples.method_node 0 0 40)
      = Done tokens ∧
    length tokens = 3%nat.
Proof.
  destruct (traversal_of_reaching_chain (str := ascii_str) Examples.g_linear
              (Examples.method_node 0 0 40) (mkNode 1 TOKEN "Public" 0 6)
              (mkNode 4 TOKEN "}" 39 40) 3 9) as (tokens & Hdone & Hlen & _).
  - reflexivity.
  - reflexivity.
  - reflexivity.
  - exact g_linear_open.
  - lia.
  - by exists tokens.
Defined.

Lemma most_common_all (n : Z) cnt :
  len cnt ≤ n -> (most_common n cnt).*1 ≡ₚ cnt.*1.
Proof.
  intros Hn. unfold most_common, len in *.
  rewrite take_ge.
  - by rewrite sorted_by_count_perm.
  - assert (Hlen : length (sorted_by_count cnt) = length cnt)
      by (by rewrite sorted_by_count_perm).
    lia.
Qed.

(** X17: when [str.lower] gives no reserved symbol and [vocab_size] is at
    least the number of distinct tokens of the corpus, the vocabulary built
    from the corpus has an id of its own for every token of the corpus, and
    the rows that [load_data_from_dir] makes of the same corpus with this
    vocabulary hold the unknown id nowhere. *)
Theorem covering_vocabulary_leaves_no_unknown {str : StrLower} (fuel : nat)
    (data_files : list Graph) (vocab_size L : Z) :
  lower_avoids_reserved ->
  Forall (λ g, (load_data_file fuel g).2 = Finished) data_files ->
  len (remove_dups (concat (corpus fuel data_files))) ≤ vocab_size ->
  ∃ vocab rows unk_id,
    build_vocab_from_data_dir fuel data_files vocab_size = Return vocab ∧
    load_data_from_dir fuel vocab L data_files = Return rows ∧
    token_to_id vocab !! get_unk = Some unk_id ∧
    (∀ t, t ∈ concat (corpus fuel data_files) ->
       ∃ i, token_to_id vocab !! t = Some i ∧ i ≠ unk_id) ∧
    (∀ row, row ∈ rows -> unk_id ∉ row).
Proof.
  intros Hlower Hall Hsize.
  pose proof (build_vocab_returns fuel data_files vocab_size Hall) as Hret.
  pose proof (build_vocab_tokens fuel data_files vocab_size Hlower) as Htok.
  remember (add_tokens reserved_vocabulary
              (most_common vocab_size
                 (count_tokens [] (corpus fuel data_files)))) as vocab
    eqn:Hvocab.
  assert (Hwf : vocab_wf vocab).
  { rewrite Hvocab. apply add_tokens_wf, reserved_vocabulary_wf. }
  assert (Hres : has_reserved vocab 0 1 2 3).
  { destruct reserved_vocabulary_has_reserved as [Hu Hp Hs He].
    rewrite Hvocab. split; by apply add_tokens_lookup. }
  assert (Hknown : ∀ t, t ∈ concat (corpus fuel data_files) ->
            ∃ i, token_to_id vocab !! t = Some i ∧ i ≠ 0%nat).
  { intros t Ht.
    assert (Hin : t ∈ id_to_token vocab).
    { rewrite Htok. apply elem_of_app. right.
      rewrite most_common_all.
      - by apply count_tokens_keys_iff.
      - unfold len. rewrite corpus_counter_length. exact Hsize. }
    apply list_elem_of_lookup in Hin as [i Hi]. apply Hwf in Hi.
    exists i. split; [done|]. intros ->.
    destruct Hres as [Hu _ _ _]. apply Hwf in Hu, Hi.
    rewrite Hu in Hi. injection Hi as <-.
    apply (corpus_token_not_reserved fuel data_files) in Ht; [|done].
    apply Ht. left. }
  eexists vocab, _, 0%nat.
  split; [done|].
  split; [by apply (load_data_from_dir_rows _ _ _ _ _ Hres)|].
  split; [by destruct Hres|]. split; [done|].
  intros row (token_seq & -> & Hseq)%list_elem_of_fmap
         (i & Hid & Hi)%list_elem_of_fmap.
  apply elem_of_seqZ in Hi.
  destruct (position_id_cases vocab 0%nat 1%nat 2%nat 3%nat token_seq i
              ltac:(lia))
    as [[_ Hk]|[[_ (t & Ht & Hk)]|[[_ Hk]|[_ Hk]]]];
    rewrite Hk in Hid; try done.
  destruct (Hknown t) as (k & Hlook & Hne).
  { apply list_elem_of_In, in_concat. exists token_seq.
    by rewrite <- !list_elem_of_In. }
  unfold id_or in Hid. rewrite Hlook in Hid. simpl in Hid. congruence.
Qed.

Lemma covering_vocabulary_leaves_no_unknown_witness :
  ∃ vocab rows,
    build_vocab_from_data_dir (str := ascii_str) 4 [Examples.g_linear] 3 = Return vocab ∧
    load_data_from_dir (str := ascii_str) 4 vocab 5 [Examples.g_linear] = Return rows ∧
    ∀ row, row ∈ rows -> 0%nat ∉ row.
Proof.
  destruct (covering_vocabulary_leaves_no_unknown (str := ascii_str) 4 [Examples.g_linear] 3 5)
    as (vocab & rows & unk_id & Hret & Hrows & Hunk & _ & Hno).
  - exact ascii_lower_avoids_reserved.
  - repeat constructor.
  - by vm_compute.
  - exists vocab, rows. split; [done|]. split; [done|].
    assert (unk_id = 0%nat) as <-; [|done].
    vm_compute in Hret. injection Hret as <-.
    vm_compute in Hunk. by injection Hunk as <-.
Defined.
